(** * The cache-aside layer of the MCP server

    A shallow embedding of the read-through / write-invalidation code of
    [mcp-server] (the Fastify service that fronts Supabase and Redis):
    the module variable [redis], [getCachedOrFetch], [invalidateCache],
    the user and order routes and the error handler.

    Every [await] of the source is a step of a state-and-exception monad
    over a [World] that holds the module variable, the Redis keyspace,
    the clock, the persistent store and a trace of the operations
    issued. Redis, Supabase and the JSON functions of the runtime are
    the environment: Redis is a keyspace with expiry whose commands can
    be rejected, Supabase and JSON are parameters. A request is served
    to completion before the next event; requests interleaved at their
    [await]s are not modelled.

    The script [generateTypes] of the same file, which writes the
    shared types and the API client, is embedded apart, over the files
    it writes, in the module [Script]. *)

From Stdlib Require Import Ascii String.
From stdpp Require Import gmap strings list fin_maps pretty.

Local Open Scope string_scope.
Local Open Scope list_scope.

#[local] Set Warnings "-register-all,-clear-no-such-hyp".

(** ** Values *)

(** JavaScript values, as far as the routes build and return them. *)
Inductive json : Type :=
| JUndefined
| JNull
| JBool (b : bool)
| JNum (n : Z)
| JStr (s : string)
| JArr (items : list json)
| JObj (fields : list (string * json)).

(** A JavaScript [Error]; only its [message] is ever read. *)
Record exn : Type := Error { message : string }.

(** What awaiting a promise gives: its value, or the thrown error. *)
Inductive outcome (A : Type) : Type :=
| Return (a : A)
| Throw (e : exn).
Arguments Return {A} a.
Arguments Throw {A} e.

(** The JavaScript runtime's serializer and parser. [JSON.stringify]
    gives no text ([undefined]) for some values; [JSON.parse] throws on
    a text that is not a JSON document. *)
Class Runtime : Type := {
  JSON_stringify : json -> option string;
  JSON_parse : string -> outcome json
}.

(** Truthiness of what [redis.get] resolves to ([string | null]): [null]
    and the empty string are falsy. *)
Definition truthy (cached : option string) : bool :=
  match cached with
  | Some (String _ _) => true
  | _ => false
  end.

(** The client sends an absent ([undefined]) argument as the empty
    string. *)
Definition to_arg (value : option string) : string := default EmptyString value.

(** An absent value inside a template literal. *)
Definition to_template (value : option string) : string :=
  default "undefined" value.

(** ** Glob patterns of [KEYS]

    [*] matches any run of characters, [?] any one character, every
    other character itself. Bracket classes and backslash escapes are
    not modelled: the patterns the routes build are [users:*] and
    [user:<id>], and statements about the latter ask that [id] is
    [glob_free]. *)
Fixpoint glob (pattern : string) : string -> bool :=
  match pattern with
  | EmptyString => fun text =>
      match text with EmptyString => true | String _ _ => false end
  | String c p =>
      if Ascii.eqb c "*"%char then
        fix star (text : string) : bool :=
          glob p text
          || match text with
             | EmptyString => false
             | String _ t => star t
             end
      else if Ascii.eqb c "?"%char then fun text =>
        match text with EmptyString => false | String _ t => glob p t end
      else fun text =>
        match text with
        | EmptyString => false
        | String d t => Ascii.eqb c d && glob p t
        end
  end.

Definition metachar (c : ascii) : bool :=
  (Ascii.eqb c "*" || Ascii.eqb c "?" || Ascii.eqb c "[" || Ascii.eqb c "\")%char.

Fixpoint glob_free (s : string) : bool :=
  match s with
  | EmptyString => true
  | String c t => negb (metachar c) && glob_free t
  end.

(** ** Supabase

    A query resolves to [{ data, error, count }]; it does not throw. *)
Record reply : Type := Reply {
  data : json;
  error : option exn;
  count : option Z
}.

(** The queries the routes send, over a store of type [DB]. *)
Class Supabase (DB : Type) : Type := {
  (* from('users').select('*').order('created_at', { ascending: false }) *)
  users_select_all : DB -> reply;
  (* from('users').select('*').eq('id', id).single() *)
  users_select_one : string -> DB -> reply;
  (* from('users').insert(row).select().single() *)
  users_insert : json -> DB -> reply * DB;
  (* from('users').update(patch).eq('id', id).select().single() *)
  users_update : json -> string -> DB -> reply * DB;
  (* from('users').delete().eq('id', id) *)
  users_delete : string -> DB -> reply * DB;
  (* from('users').select('count', { count: 'exact', head: true }) *)
  users_probe : DB -> outcome reply;
  (* from('orders').select('*', { count: 'exact' }), the two optional
     eq filters, order by created_at, range(from, to) *)
  orders_select : option string -> option string -> Z -> Z -> DB -> reply
}.

(** ** The world *)

(** Operations issued, oldest first. *)
Inductive event : Type :=
| EPing
| EGet (key : string)
| ESetex (key : string) (seconds : nat) (value : string)
| EKeys (pattern : string)
| EDel (keys : list string)
| EFetch
| EInfo (msg : string)
| EWarn (msg : string)
| EError (msg : string).

Section Server.

(** The persistent store behind Supabase. *)
Context {DB : Type}.
Context `{Runtime} `{Supabase DB}.

Record World : Type := mkWorld {
  redis : bool;
    (* the module variable: [true] for a client, [false] for [null] *)
  keyspace : gmap string (string * nat);
    (* Redis: key to stored text and the instant it expires *)
  clock : nat;
    (* seconds *)
  faults : list (option exn);
    (* how the backend answers the coming commands, one entry each:
       [Some e] rejects the command with [e]; past the end every
       command succeeds *)
  db : DB;
  trace : list event
}.

Definition set_redis (b : bool) (w : World) : World :=
  mkWorld b (keyspace w) (clock w) (faults w) (db w) (trace w).
Definition set_keyspace (m : gmap string (string * nat)) (w : World) : World :=
  mkWorld (redis w) m (clock w) (faults w) (db w) (trace w).
Definition set_clock (t : nat) (w : World) : World :=
  mkWorld (redis w) (keyspace w) t (faults w) (db w) (trace w).
Definition set_faults (l : list (option exn)) (w : World) : World :=
  mkWorld (redis w) (keyspace w) (clock w) l (db w) (trace w).
Definition set_db (d : DB) (w : World) : World :=
  mkWorld (redis w) (keyspace w) (clock w) (faults w) d (trace w).
Definition emit (e : event) (w : World) : World :=
  mkWorld (redis w) (keyspace w) (clock w) (faults w) (db w) (trace w ++ [e]).

(** ** The monad of asynchronous code *)

Definition M (A : Type) : Type := World -> outcome A * World.

Definition ret {A} (a : A) : M A := fun w => (Return a, w).

Definition throw {A} (e : exn) : M A := fun w => (Throw e, w).

Definition bind {A B} (m : M A) (k : A -> M B) : M B := fun w =>
  match m w with
  | (Return a, w') => k a w'
  | (Throw e, w') => (Throw e, w')
  end.

Notation "x <- m ;; k" := (bind m (fun x => k))
  (at level 100, m at next level, right associativity).
Notation "m ;; k" := (bind m (fun _ => k))
  (at level 100, right associativity).

Definition get_redis : M bool := fun w => (Return (redis w), w).

Definition log (e : event) : M unit := fun w => (Return tt, emit e w).

(** ** The Redis commands used *)

(** The error the backend will answer the next command with, if any. *)
Definition next_fault (w : World) : option exn :=
  match faults w with
  | Some e :: _ => Some e
  | _ => None
  end.

(** The world a command leaves once it is recorded and answered. *)
Definition answered (ev : event) (w : World) : World :=
  set_faults (tail (faults w)) (emit ev w).

(** A command is recorded, then answered as [faults] says. *)
Definition command {A} (ev : event) (run : World -> A * World) : M A := fun w =>
  match next_fault w with
  | Some e => (Throw e, answered ev w)
  | None => let (a, w') := run (answered ev w) in (Return a, w')
  end.

(** The text under [key], unless it has expired. *)
Definition live (w : World) (key : string) : option string :=
  match keyspace w !! key with
  | Some (text, expiry) => if (clock w <? expiry)%nat then Some text else None
  | None => None
  end.

Definition redis_ping : M unit :=
  command EPing (fun w => (tt, w)).

Definition redis_get (key : string) : M (option string) :=
  command (EGet key) (fun w => (live w key, w)).

Definition redis_setex (key : string) (seconds : nat) (value : option string) : M unit :=
  command (ESetex key seconds (to_arg value))
    (fun w => (tt, set_keyspace (<[key := (to_arg value, clock w + seconds)]> (keyspace w)) w)).

Definition matching (w : World) (pattern : string) : list string :=
  omap (fun kv : string * (string * nat) =>
          if (clock w <? kv.2.2)%nat && glob pattern kv.1 then Some kv.1 else None)
       (map_to_list (keyspace w)).

Definition redis_keys (pattern : string) : M (list string) :=
  command (EKeys pattern) (fun w => (matching w pattern, w)).

Definition redis_del (keys : list string) : M nat :=
  command (EDel keys)
    (fun w => (length (filter (fun k => is_Some (live w k)) keys),
               set_keyspace (foldr delete (keyspace w) keys) w)).

(** ** Fetchers *)

(** The [() => Promise<T>] handed to [getCachedOrFetch]: a computation
    over the persistent store. *)
Definition fetcher_t : Type := DB -> outcome json * DB.

Definition call (fetcher : fetcher_t) : M json := fun w =>
  let w := emit EFetch w in
  let (r, d) := fetcher (db w) in (r, set_db d w).

(** ** getCachedOrFetch and invalidateCache *)

Definition default_ttl : nat := 300.

Definition getCachedOrFetch (cacheKey : string) (fetcher : fetcher_t) (ttl : nat)
  : M json :=
  r <- get_redis ;;
  if negb r then
    call fetcher
  else
    cached <- redis_get cacheKey ;;
    if truthy cached then
      log (EInfo ("Cache hit: " +:+ cacheKey)) ;;
      (* [cached] is a string here, and [to_arg] gives it *)
      (fun w => (JSON_parse (to_arg cached), w))
    else
      data <- call fetcher ;;
      redis_setex cacheKey ttl (JSON_stringify data) ;;
      log (EInfo ("Cache set: " +:+ cacheKey)) ;;
      ret data.

Definition invalidateCache (pattern : string) : M unit :=
  r <- get_redis ;;
  if negb r then ret tt
  else
    keys <- redis_keys pattern ;;
    if (0 <? length keys)%nat then
      redis_del keys ;;
      log (EInfo ("Cache invalidated: " +:+ pretty (length keys)
                  +:+ " keys matching " +:+ pattern))
    else ret tt.

(** ** Start-up and the connection's error event *)

Definition put_redis (b : bool) : M unit := fun w => (Return tt, set_redis b w).

Definition try_catch {A} (m : M A) (handler : exn -> M A) : M A := fun w =>
  match m w with
  | (Return a, w') => (Return a, w')
  | (Throw e, w') => handler e w'
  end.

(** The listener of the connection's [error] event. *)
Definition on_error (e : exn) : M unit :=
  log (EWarn ("⚠️ Redis error:" +:+ " " +:+ message e)) ;;
  put_redis false.

Fixpoint on_errors (es : list exn) : M unit :=
  match es with
  | [] => ret tt
  | e :: rest => on_error e ;; on_errors rest
  end.

(** Module initialisation: the client is created (lazily connected),
    the listener is attached, then the client is pinged; a failing ping
    leaves [redis] null. The ping opens the connection, and while it is
    awaited the connection can raise [error] events (a refused
    connection that is tried again): [during] lists them, and the
    listener handles each before the ping is answered. *)
Definition startup (during : list exn) : M unit :=
  put_redis true ;;
  try_catch (on_errors during ;; redis_ping)
    (fun _ => log (EWarn "⚠️ Redis not available, caching disabled") ;;
              put_redis false).

(** ** Routes *)

Record response : Type := Response { code : nat; payload : json }.

Definition supabase (q : DB -> reply * DB) : M reply := fun w =>
  let (r, d) := q (db w) in (Return r, set_db d w).

(** [{ ...body, k: v }]: a later key replaces an earlier one in place. *)
Fixpoint assign (k : string) (v : json) (fields : list (string * json))
  : list (string * json) :=
  match fields with
  | [] => [(k, v)]
  | (k', v') :: rest =>
      if String.eqb k k' then (k, v) :: rest else (k', v') :: assign k v rest
  end.

(** The own fields of a request body (an object, by the route's schema). *)
Definition spread (body : json) : list (string * json) :=
  match body with
  | JObj fields => fields
  | _ => []
  end.

Definition fetch_users : fetcher_t := fun d =>
  let r := users_select_all d in
  match error r with
  | Some e => (Throw (Error (message e)), d)
  | None => (Return (JObj [("data", data r)]), d)
  end.

Definition get_users : M response :=
  body <- getCachedOrFetch "users:all" fetch_users default_ttl ;;
  ret (Response 200 body).

Definition fetch_user (id : string) : fetcher_t := fun d =>
  let r := users_select_one id d in
  match error r with
  | Some e => (Throw (Error (message e)), d)
  | None => (Return (JObj [("data", data r)]), d)
  end.

Definition get_user (id : string) : M response :=
  body <- getCachedOrFetch ("user:" +:+ id) (fetch_user id) default_ttl ;;
  ret (Response 200 body).

(** [id] is what [nanoid()] gave, the two dates what
    [new Date().toISOString()] gave. *)
Definition post_users (body : json) (id created_at updated_at : string)
  : M response :=
  r <- supabase (users_insert
         (JObj (assign "updated_at" (JStr updated_at)
               (assign "created_at" (JStr created_at)
               (assign "id" (JStr id) (spread body)))))) ;;
  match error r with
  | Some e => throw (Error (message e))
  | None =>
      invalidateCache "users:*" ;;
      ret (Response 201 (JObj [("data", data r)]))
  end.

Definition patch_user (id : string) (body : json) (updated_at : string)
  : M response :=
  r <- supabase (users_update
         (JObj (assign "updated_at" (JStr updated_at) (spread body))) id) ;;
  match error r with
  | Some e => throw (Error (message e))
  | None =>
      invalidateCache ("user:" +:+ id) ;;
      invalidateCache "users:*" ;;
      ret (Response 200 (JObj [("data", data r)]))
  end.

Definition delete_user (id : string) : M response :=
  r <- supabase (users_delete id) ;;
  match error r with
  | Some e => throw (Error (message e))
  | None =>
      invalidateCache ("user:" +:+ id) ;;
      invalidateCache "users:*" ;;
      ret (Response 204 JNull)
  end.

(** The query string of [GET /api/orders]. *)
Record orders_query : Type := OrdersQuery {
  user_id : option string;
  status : option string;
  limit : option Z;
  offset : option Z
}.

Definition optional (s : option string) : json :=
  match s with
  | Some s => JStr s
  | None => JUndefined
  end.

(** [if (x) query = query.eq(...)]: the filter is applied for a truthy
    [x] only. *)
Definition filter_of (s : option string) : option string :=
  if truthy s then s else None.

Definition orders_key (q : orders_query) : string :=
  "orders:" +:+
  to_template (JSON_stringify
    (JObj [("user_id", optional (user_id q)); ("status", optional (status q));
           ("limit", JNum (default 20%Z (limit q)));
           ("offset", JNum (default 0%Z (offset q)))])).

Definition fetch_orders (q : orders_query) : fetcher_t := fun d =>
  let limit := default 20%Z (limit q) in
  let offset := default 0%Z (offset q) in
  let r := orders_select (filter_of (user_id q)) (filter_of (status q))
             offset (offset + limit - 1)%Z d in
  match error r with
  | Some e => (Throw (Error (message e)), d)
  | None =>
      (Return (JObj [("data", data r);
                     ("meta", JObj [("total", JNum (default 0%Z (count r)));
                                    ("limit", JNum limit);
                                    ("offset", JNum offset)])]), d)
  end.

Definition get_orders (q : orders_query) : M response :=
  body <- getCachedOrFetch (orders_key q) (fetch_orders q) 60 ;;
  ret (Response 200 body).

Definition get_health (timestamp : string) : M response :=
  dbStatus <- (fun w => match users_probe (db w) with
                        | Return _ => (Return "ok", w)
                        | Throw _ => (Return "error", w)
                        end) ;;
  r <- get_redis ;;
  cacheStatus <- (if r then try_catch (redis_ping ;; ret "ok")
                                      (fun _ => ret "error")
                  else ret "disabled") ;;
  ret (Response 200
         (JObj [("status", JStr "ok"); ("timestamp", JStr timestamp);
                ("services", JObj [("database", JStr dbStatus);
                                   ("cache", JStr cacheStatus)])])).

(** ** Requests and the error handler *)

Inductive request : Type :=
| GET_users
| GET_user (id : string)
| POST_users (body : json) (id created_at updated_at : string)
| PATCH_user (id : string) (body : json) (updated_at : string)
| DELETE_user (id : string)
| GET_orders (q : orders_query)
| GET_health (timestamp : string).

Definition handle (r : request) : M response :=
  match r with
  | GET_users => get_users
  | GET_user id => get_user id
  | POST_users body id created_at updated_at =>
      post_users body id created_at updated_at
  | PATCH_user id body updated_at => patch_user id body updated_at
  | DELETE_user id => delete_user id
  | GET_orders q => get_orders q
  | GET_health timestamp => get_health timestamp
  end.

(** The body [app.setErrorHandler] sends, with status 500. *)
Definition internal_error (e : exn) : response :=
  Response 500 (JObj [("error", JStr "Internal Server Error");
                      ("message", JStr (message e))]).

(** [app.setErrorHandler]: whatever a route throws is logged and
    becomes a 500. *)
Definition errorHandler (e : exn) : M response :=
  log (EError (message e)) ;;
  ret (internal_error e).

Definition serve (r : request) : M response :=
  try_catch (handle r) errorHandler.

(** ** What happens after start-up *)

Inductive action : Type :=
| Serve (r : request)
| ErrorEvent (e : exn)
| Elapse (seconds : nat)
| Call (cacheKey : string) (fetcher : fetcher_t) (ttl : nat)
| Invalidate (pattern : string).

Definition step (a : action) (w : World) : World :=
  match a with
  | Serve r => (serve r w).2
  | ErrorEvent e => (on_error e w).2
  | Elapse seconds => set_clock (clock w + seconds) w
  | Call cacheKey fetcher ttl => (getCachedOrFetch cacheKey fetcher ttl w).2
  | Invalidate pattern => (invalidateCache pattern w).2
  end.

Fixpoint run (acts : list action) (w : World) : World :=
  match acts with
  | [] => w
  | a :: rest => run rest (step a w)
  end.

(** ** Vocabulary of the statements *)

(** The events [w'] has on top of those of [w]. *)
Definition issued (w w' : World) : list event :=
  drop (length (trace w)) (trace w').

(** The events that are Redis commands. *)
Definition is_command (e : event) : bool :=
  match e with
  | EPing | EGet _ | ESetex _ _ _ | EKeys _ | EDel _ => true
  | _ => false
  end.

(** The patterns an action hands to [invalidateCache]. *)
Definition invalidates (a : action) : list string :=
  match a with
  | Serve (POST_users _ _ _ _) => ["users:*"]
  | Serve (PATCH_user id _ _) => ["user:" +:+ id; "users:*"]
  | Serve (DELETE_user id) => ["user:" +:+ id; "users:*"]
  | Invalidate pattern => [pattern]
  | _ => []
  end.

Definition touches (a : action) (key : string) : bool :=
  existsb (fun pattern => glob pattern key) (invalidates a).

(** The key an action hands to [getCachedOrFetch]. *)
Definition reads (a : action) : option string :=
  match a with
  | Serve GET_users => Some "users:all"
  | Serve (GET_user id) => Some ("user:" +:+ id)
  | Serve (GET_orders q) => Some (orders_key q)
  | Call cacheKey _ _ => Some cacheKey
  | _ => None
  end.

(** What a read route hands to [getCachedOrFetch]: the key, the fetcher
    and the time to live (the default when the route names none). *)
Definition read_of (r : request) : option (string * fetcher_t * nat) :=
  match r with
  | GET_users => Some ("users:all", fetch_users, default_ttl)
  | GET_user id => Some ("user:" +:+ id, fetch_user id, default_ttl)
  | GET_orders q => Some (orders_key q, fetch_orders q, 60)
  | _ => None
  end.

(** The query a write route sends to the persistent store. *)
Definition write_of (r : request) : option (DB -> reply * DB) :=
  match r with
  | POST_users body id created_at updated_at =>
      Some (users_insert
              (JObj (assign "updated_at" (JStr updated_at)
                    (assign "created_at" (JStr created_at)
                    (assign "id" (JStr id) (spread body))))))
  | PATCH_user id body updated_at =>
      Some (users_update
              (JObj (assign "updated_at" (JStr updated_at) (spread body))) id)
  | DELETE_user id => Some (users_delete id)
  | _ => None
  end.

(** The invalidations of a write route, one after the other. *)
Fixpoint invalidate_all (patterns : list string) : M unit :=
  match patterns with
  | [] => ret tt
  | pattern :: rest => invalidateCache pattern ;; invalidate_all rest
  end.

(** The keys a write route's patterns stand for: every key that starts
    with [users:], and for an update or a delete of [id] the key
    [user:<id>], provided [id] has no glob metacharacter. *)
Definition purges (r : request) (key : string) : bool :=
  match r with
  | POST_users _ _ _ _ => String.prefix "users:" key
  | PATCH_user id _ _ =>
      (glob_free id && String.eqb key ("user:" +:+ id))
      || String.prefix "users:" key
  | DELETE_user id =>
      (glob_free id && String.eqb key ("user:" +:+ id))
      || String.prefix "users:" key
  | _ => false
  end.

(** The answer of a write route once its write and its invalidations
    have gone through. *)
Definition written (r : request) (rep : reply) : response :=
  match r with
  | POST_users _ _ _ _ => Response 201 (JObj [("data", data rep)])
  | PATCH_user _ _ _ => Response 200 (JObj [("data", data rep)])
  | DELETE_user _ => Response 204 JNull
  | _ => Response 200 JNull
  end.

(** Nothing live under [key] before, nothing live after. *)
Definition still_gone (key : string) (w w' : World) : Prop :=
  live w key = None -> live w' key = None.

(** [w'] has the events of [w], then events that all satisfy [P]. *)
Definition extends (P : event -> Prop) (w w' : World) : Prop :=
  exists evs, trace w' = trace w ++ evs /\ Forall P evs.

(** An event that, if it is a [SETEX], is one of [key] for [seconds]. *)
Definition stores_only (rule : option (string * nat)) (ev : event) : Prop :=
  match ev with
  | ESetex key seconds _ => rule = Some (key, seconds)
  | _ => True
  end.

(** The Redis commands issued so far. *)
Definition commands (w : World) : list event :=
  List.filter is_command (trace w).

(** A computation whose final world is always related by [R] to its
    initial one. *)
Definition keeps {A} (R : World -> World -> Prop) (m : M A) : Prop :=
  forall w, R w (m w).2.

(** Started with [redis] null, nothing sets it again and no command is
    issued. *)
Definition stays_off (w w' : World) : Prop :=
  redis w = false -> redis w' = false /\ commands w' = commands w.

(** Neither the clock nor the module variable has changed. *)
Definition steady (w w' : World) : Prop :=
  clock w' = clock w /\ redis w' = redis w.

(** The entry under [key] and the clock are as before. *)
Definition same_entry (key : string) (w w' : World) : Prop :=
  keyspace w' !! key = keyspace w !! key /\ clock w' = clock w.

(** A call of [getCachedOrFetch] that has stored under [cacheKey]: it
    found the cache on, missed and returned [v], so that its [SETEX]
    was answered and [Cache set] logged. *)
Definition stored (cacheKey : string) (fetcher : fetcher_t) (ttl : nat)
    (w : World) (v : json) (w' : World) : Prop :=
  redis w = true /\ truthy (live w cacheKey) = false /\
  getCachedOrFetch cacheKey fetcher ttl w = (Return v, w').

(** A call of [getCachedOrFetch] that has populated [cacheKey]: it found
    the cache on, missed, returned [v], and stored for [v] a text that a
    later [if (cached)] takes for an entry, that is a non-empty one.
    ([JSON.stringify] gives no text for [undefined]; the empty text
    stored in its place reads as a miss.) *)
Definition populates (cacheKey : string) (fetcher : fetcher_t) (ttl : nat)
    (w : World) (v : json) (w' : World) : Prop :=
  redis w = true /\ truthy (live w cacheKey) = false /\
  getCachedOrFetch cacheKey fetcher ttl w = (Return v, w') /\
  truthy (JSON_stringify v) = true.

(** ** Vocabulary of the further statements *)

(** [o[k]] on the fields of an object literal: the first field [k]. *)
Fixpoint get_field (k : string) (fields : list (string * json)) : option json :=
  match fields with
  | [] => None
  | (k', v) :: rest => if String.eqb k k' then Some v else get_field k rest
  end.

(** Every entry of the keyspace expires within [n] seconds. *)
Definition within (n : nat) (w : World) : Prop :=
  forall key text expiry,
    keyspace w !! key = Some (text, expiry) -> expiry <= clock w + n.

(** If every entry expired within [n] seconds before, it does after. *)
Definition bounded (n : nat) (w w' : World) : Prop :=
  within n w -> within n w'.

(** What reaches the server from outside: a request, an error event of
    the connection, time passing. *)
Definition external (a : action) : bool :=
  match a with
  | Serve _ | ErrorEvent _ | Elapse _ => true
  | _ => false
  end.

(** No entry has been added or changed: each is as before, or gone. *)
Definition shrinks (w w' : World) : Prop :=
  forall key, keyspace w' !! key = None \/ keyspace w' !! key = keyspace w !! key.

(** No entry has been removed. *)
Definition grows (w w' : World) : Prop :=
  forall key, is_Some (keyspace w !! key) -> is_Some (keyspace w' !! key).

(** The [id] of an update or a delete has no glob metacharacter. *)
Definition literal_target (r : request) : bool :=
  match r with
  | PATCH_user id _ _ => glob_free id
  | DELETE_user id => glob_free id
  | _ => true
  end.

(** The answer of a read route for what [getCachedOrFetch] gave. *)
Definition answer_of (res : outcome json) : outcome response :=
  match res with
  | Return body => Return (Response 200 body)
  | Throw e => Return (internal_error e)
  end.

(** *** The ids of the routes

    The routes with an [:id] declare it [{ type: 'string', format:
    'uuid' }], and a request whose id is not one is answered by the
    validation, before the handler. The format is the regular
    expression [^(?:urn:uuid:)?[0-9a-f]{8}-(?:[0-9a-f]{4}-){3}[0-9a-f]{12}$],
    case ignored. The id of a created user is what [nanoid()] returns:
    21 characters among [A-Za-z0-9_-]. *)

(** A text that has one character for each test of [shape], in order,
    each passing its test. *)
Fixpoint fits (shape : list (ascii -> bool)) (s : string) : bool :=
  match shape, s with
  | [], EmptyString => true
  | test :: shape, String c t => test c && fits shape t
  | _, _ => false
  end.

Definition between (lo hi c : ascii) : bool :=
  (nat_of_ascii lo <=? nat_of_ascii c)%nat && (nat_of_ascii c <=? nat_of_ascii hi)%nat.

Definition hex (c : ascii) : bool :=
  (between "0" "9" c || between "a" "f" c || between "A" "F" c)%char.

(** The letter [c], case ignored. *)
Definition letter (lower upper c : ascii) : bool :=
  Ascii.eqb c lower || Ascii.eqb c upper.

Definition uuid_shape : list (ascii -> bool) :=
  replicate 8 hex ++ [Ascii.eqb "-"%char] ++
  replicate 4 hex ++ [Ascii.eqb "-"%char] ++
  replicate 4 hex ++ [Ascii.eqb "-"%char] ++
  replicate 4 hex ++ [Ascii.eqb "-"%char] ++
  replicate 12 hex.

Definition urn_shape : list (ascii -> bool) :=
  [letter "u" "U"; letter "r" "R"; letter "n" "N"; Ascii.eqb ":";
   letter "u" "U"; letter "u" "U"; letter "i" "I"; letter "d" "D";
   Ascii.eqb ":"]%char.

Definition uuid (id : string) : bool :=
  fits uuid_shape id || fits (urn_shape ++ uuid_shape) id.

Definition url_safe (c : ascii) : bool :=
  (between "A" "Z" c || between "a" "z" c || between "0" "9" c
   || Ascii.eqb c "_" || Ascii.eqb c "-")%char.

(** What [nanoid()] can return. *)
Definition from_nanoid (id : string) : bool :=
  fits (replicate 21 url_safe) id.

(** A request as it reaches its handler: the [:id] of a read, an update
    or a delete is a uuid, the id of a create comes from [nanoid()].
    (What else the schemas ask of a request plays no part here.) *)
Definition admitted (r : request) : bool :=
  match r with
  | GET_user id => uuid id
  | PATCH_user id _ _ => uuid id
  | DELETE_user id => uuid id
  | POST_users _ id _ _ => from_nanoid id
  | _ => true
  end.

(** What happens to a running server: an admitted request, an error
    event of the connection, time passing. *)
Definition happens (a : action) : bool :=
  match a with
  | Serve r => admitted r
  | ErrorEvent _ | Elapse _ => true
  | _ => false
  end.

(** Every [user:<id>] key of the keyspace has a uuid for its id, as in
    an empty cache and in one that only the routes have written to. *)
Definition uuid_keyed (w : World) : Prop :=
  forall id, is_Some (keyspace w !! ("user:" +:+ id)) -> uuid id = true.

(** The user a write route writes. *)
Definition target (r : request) : option string :=
  match r with
  | POST_users _ id _ _ => Some id
  | PATCH_user id _ _ => Some id
  | DELETE_user id => Some id
  | _ => None
  end.

(** The keys of the user a write route writes: [user:<id>], and every
    key of a users listing. *)
Definition concerns (r : request) (key : string) : bool :=
  match target r with
  | Some id => String.eqb key ("user:" +:+ id) || String.prefix "users:" key
  | None => false
  end.

End Server.

(** ** The script that generates the shared types

    [generateTypes] asks the running server for its type definitions
    and writes them, with an API client, into the shared directory. The
    answer of [fetch] is an input; the file system is a map from paths
    to texts whose calls can be rejected. *)
Module Script.

(** Node, as far as the script uses it. *)
Class Node : Type := {
  (* process.cwd() *)
  cwd : string;
  (* path.join *)
  path_join : list string -> string;
  (* the text [fs.writeFile] writes for its data argument, or the
     TypeError for a value it does not take *)
  file_data : json -> outcome string;
  (* a string is written as it is *)
  file_data_string : forall s, file_data (JStr s) = Return s
}.

(** What [fetch] resolved to: [response.ok], and what awaiting
    [response.json()] gives. *)
Record Fetched : Type := mkFetched {
  res_ok : bool;
  res_json : outcome json
}.

(** A line of the console: [console.log] or [console.error]. *)
Inductive line : Type :=
| Log (text : string)
| Err (text : string).

Section Generate.

Context `{Node}.

Record Machine : Type := mkMachine {
  files : gmap string string;
    (* path to contents *)
  directories : gset string;
    (* the directories [mkdir] was asked for and made *)
  rejections : list (option (exn * option string));
    (* how the file system answers the coming calls, one entry each:
       [Some (e, rest)] rejects the call with [e], and a rejected
       [writeFile] leaves [rest] in the file if it is [Some], the file
       as it was otherwise; past the end every call succeeds *)
  console : list line;
    (* oldest first *)
  exit_code : option nat
    (* set by [process.exit] *)
}.

Definition set_files (f : gmap string string) (m : Machine) : Machine :=
  mkMachine f (directories m) (rejections m) (console m) (exit_code m).
Definition set_directories (d : gset string) (m : Machine) : Machine :=
  mkMachine (files m) d (rejections m) (console m) (exit_code m).
Definition set_rejections (l : list (option (exn * option string)))
    (m : Machine) : Machine :=
  mkMachine (files m) (directories m) l (console m) (exit_code m).
Definition print (l : line) (m : Machine) : Machine :=
  mkMachine (files m) (directories m) (rejections m) (console m ++ [l])
    (exit_code m).
Definition process_exit (code : nat) (m : Machine) : Machine :=
  mkMachine (files m) (directories m) (rejections m) (console m) (Some code).

Definition P (A : Type) : Type := Machine -> outcome A * Machine.

Definition ret {A} (a : A) : P A := fun m => (Return a, m).

Definition throw {A} (e : exn) : P A := fun m => (Throw e, m).

Definition await {A} (o : outcome A) : P A := fun m => (o, m).

Definition bind {A B} (p : P A) (k : A -> P B) : P B := fun m =>
  match p m with
  | (Return a, m') => k a m'
  | (Throw e, m') => (Throw e, m')
  end.

Notation "x <- p ;; k" := (bind p (fun x => k))
  (at level 100, p at next level, right associativity).
Notation "p ;; k" := (bind p (fun _ => k))
  (at level 100, right associativity).

(** [console.log(a, b)] prints its arguments with a space between. *)
Definition console_log (text : string) : P unit := fun m =>
  (Return tt, print (Log text) m).

Definition fs_answer : P (option (exn * option string)) := fun m =>
  match rejections m with
  | [] => (Return None, m)
  | a :: rest => (Return a, set_rejections rest m)
  end.

(** [fs.mkdir(dir, { recursive: true })]: an existing directory is no
    error. *)
Definition fs_mkdir (dir : string) : P unit :=
  a <- fs_answer ;;
  match a with
  | Some (e, _) => throw e
  | None => fun m => (Return tt, set_directories ({[dir]} ∪ directories m) m)
  end.

(** [fs.writeFile(path, data)]: the file is created or replaced. *)
Definition fs_writeFile (path : string) (data : json) : P unit :=
  text <- await (file_data data) ;;
  a <- fs_answer ;;
  match a with
  | Some (e, rest) => fun m =>
      (Throw e,
       match rest with
       | Some partial => set_files (<[path := partial]> (files m)) m
       | None => m
       end)
  | None => fun m => (Return tt, set_files (<[path := text]> (files m)) m)
  end.

(** [const { types } = v]: a TypeError (with V8's message) for [null]
    and [undefined], the property [types] or [undefined] otherwise. *)
Definition destructure_types (v : json) : outcome json :=
  match v with
  | JUndefined =>
      Throw (Error "Cannot destructure property 'types' of '(intermediate value)' as it is undefined.")
  | JNull =>
      Throw (Error "Cannot destructure property 'types' of '(intermediate value)' as it is null.")
  | JObj fields => Return (default JUndefined (get_field "types" fields))
  | _ => Return JUndefined
  end.

(** The template literal of the client, trimmed. *)
Definition apiClient : string :=
"// Auto-generated API client
export class ApiClient {
  constructor(private baseURL = 'http://localhost:3001/api') {}
  
  async get<T>(path: string): Promise<{ data: T }> {
    const res = await fetch(`${this.baseURL}${path}`);
    if (!res.ok) throw new Error(`API Error: ${res.statusText}`);
    return res.json();
  }
  
  async post<T>(path: string, data: any): Promise<{ data: T }> {
    const res = await fetch(`${this.baseURL}${path}`, {
      method: 'POST',
      headers: { 'Content-Type': 'application/json' },
      body: JSON.stringify(data)
    });
    if (!res.ok) throw new Error(`API Error: ${res.statusText}`);
    return res.json();
  }
  
  async patch<T>(path: string, data: any): Promise<{ data: T }> {
    const res = await fetch(`${this.baseURL}${path}`, {
      method: 'PATCH',
      headers: { 'Content-Type': 'application/json' },
      body: JSON.stringify(data)
    });
    if (!res.ok) throw new Error(`API Error: ${res.statusText}`);
    return res.json();
  }
  
  async delete(path: string): Promise<void> {
    const res = await fetch(`${this.baseURL}${path}`, {
      method: 'DELETE'
    });
    if (!res.ok) throw new Error(`API Error: ${res.statusText}`);
  }
}

export const api = new ApiClient();".

(** The body of the [try]. *)
Definition try_block (fetch : outcome Fetched) : P unit :=
  response <- await fetch ;;
  (if negb (res_ok response)
   then throw (Error "MCP Server not running. Start it first with: npm run dev:mcp")
   else ret tt) ;;
  parsed <- await (res_json response) ;;
  types <- await (destructure_types parsed) ;;
  let sharedDir := path_join [cwd; ".."; "shared"] in
  fs_mkdir sharedDir ;;
  let typesPath := path_join [sharedDir; "types.ts"] in
  fs_writeFile typesPath types ;;
  console_log ("✅ Types generated successfully at:" +:+ " " +:+ typesPath) ;;
  let clientPath := path_join [sharedDir; "api.ts"] in
  fs_writeFile clientPath (JStr apiClient) ;;
  console_log ("✅ API client generated at:" +:+ " " +:+ clientPath).

(** The script, from its first line to the end of the process, for
    what [fetch('http://localhost:3001/api/types')] resolves to. *)
Definition generateTypes (fetch : outcome Fetched) (m : Machine) : Machine :=
  let m := print (Log "🔧 Generating types from MCP Server...") m in
  match try_block fetch m with
  | (Return _, m') => m'
  | (Throw error, m') =>
      process_exit 1
        (print (Err ("❌ Error generating types:" +:+ " " +:+ message error)) m')
  end.

(** *** Vocabulary of the statements about the script *)

Definition sharedDir : string := path_join [cwd; ".."; "shared"].
Definition typesPath : string := path_join [sharedDir; "types.ts"].
Definition clientPath : string := path_join [sharedDir; "api.ts"].

(** What the script has in [types] when it reaches the file system. *)
Definition types_of (fetch : outcome Fetched) : outcome json :=
  match fetch with
  | Throw e => Throw e
  | Return response =>
      if res_ok response then
        match res_json response with
        | Throw e => Throw e
        | Return parsed => destructure_types parsed
        end
      else Throw (Error "MCP Server not running. Start it first with: npm run dev:mcp")
  end.

(** The file system accepts the coming [n] calls. *)
Definition accepts (n : nat) (m : Machine) : Prop :=
  Forall (fun a => a = None) (take n (rejections m)).

End Generate.

End Script.

(** ** A runtime and a store to run the server on

    A serializer and a parser for the JSON documents of the examples
    (integers for numbers, no white space, quote and backslash the only
    escapes), and a users table held as a list of rows. *)
Module Sample.

Definition quote : ascii := "034"%char.

Fixpoint escape (s : string) : string :=
  match s with
  | EmptyString => EmptyString
  | String c t =>
      if (Ascii.eqb c quote || Ascii.eqb c "\")%char
      then String "\" (String c (escape t))
      else String c (escape t)
  end.

Definition quoted (s : string) : string :=
  String quote (escape s) +:+ String quote EmptyString.

Definition join (texts : list string) : string :=
  match texts with
  | [] => EmptyString
  | t :: rest => foldl (fun acc x => acc +:+ "," +:+ x) t rest
  end.

Fixpoint stringify (v : json) : option string :=
  match v with
  | JUndefined => None
  | JNull => Some "null"
  | JBool true => Some "true"
  | JBool false => Some "false"
  | JNum n => Some (pretty n)
  | JStr s => Some (quoted s)
  | JArr items =>
      Some ("[" +:+ join (map (fun x => default "null" (stringify x)) items) +:+ "]")
  | JObj fields =>
      let member := fun kv : string * json =>
        match stringify kv.2 with
        | Some t => [quoted kv.1 +:+ ":" +:+ t]
        | None => []
        end in
      Some ("{" +:+ join (flat_map member fields) +:+ "}")
  end.

Definition digit (c : ascii) : option Z :=
  let n := nat_of_ascii c in
  if (48 <=? n)%nat && (n <=? 57)%nat then Some (Z.of_nat (n - 48)) else None.

Fixpoint digits (acc : Z) (s : string) : Z * string :=
  match s with
  | EmptyString => (acc, s)
  | String c t =>
      match digit c with
      | Some d => digits (10 * acc + d)%Z t
      | None => (acc, s)
      end
  end.

Definition parse_number (s : string) : option (json * string) :=
  match s with
  | String c t =>
      if Ascii.eqb c "-" then
        match t with
        | String d _ =>
            match digit d with
            | Some _ => let (n, rest) := digits 0 t in Some (JNum (- n), rest)
            | None => None
            end
        | EmptyString => None
        end
      else
        match digit c with
        | Some _ => let (n, rest) := digits 0 s in Some (JNum n, rest)
        | None => None
        end
  | EmptyString => None
  end.

Fixpoint parse_string (s : string) : option (string * string) :=
  match s with
  | EmptyString => None
  | String c t =>
      if Ascii.eqb c quote then Some (EmptyString, t)
      else if Ascii.eqb c "\" then
        match t with
        | String d t' =>
            match parse_string t' with
            | Some (body, rest) => Some (String d body, rest)
            | None => None
            end
        | EmptyString => None
        end
      else
        match parse_string t with
        | Some (body, rest) => Some (String c body, rest)
        | None => None
        end
  end.

Definition keyword (word : string) (v : json) (s : string) : option (json * string) :=
  if String.prefix word s
  then Some (v, String.substring (String.length word) (String.length s - String.length word) s)
  else None.

Fixpoint parse_value (fuel : nat) (s : string) : option (json * string) :=
  match fuel with
  | 0 => None
  | S fuel =>
      match s with
      | EmptyString => None
      | String c rest =>
          if Ascii.eqb c "n" then keyword "null" JNull s
          else if Ascii.eqb c "t" then keyword "true" (JBool true) s
          else if Ascii.eqb c "f" then keyword "false" (JBool false) s
          else if Ascii.eqb c quote then
            match parse_string rest with
            | Some (body, rest') => Some (JStr body, rest')
            | None => None
            end
          else if Ascii.eqb c "[" then
            match rest with
            | String "]" rest' => Some (JArr [], rest')
            | _ =>
                match parse_items fuel rest with
                | Some (items, rest') => Some (JArr items, rest')
                | None => None
                end
            end
          else if Ascii.eqb c "{" then
            match rest with
            | String "}" rest' => Some (JObj [], rest')
            | _ =>
                match parse_members fuel rest with
                | Some (fields, rest') => Some (JObj fields, rest')
                | None => None
                end
            end
          else parse_number s
      end
  end
with parse_items (fuel : nat) (s : string) : option (list json * string) :=
  match fuel with
  | 0 => None
  | S fuel =>
      match parse_value fuel s with
      | Some (v, String "," rest) =>
          match parse_items fuel rest with
          | Some (items, rest') => Some (v :: items, rest')
          | None => None
          end
      | Some (v, String "]" rest) => Some ([v], rest)
      | _ => None
      end
  end
with parse_members (fuel : nat) (s : string)
  : option (list (string * json) * string) :=
  match fuel with
  | 0 => None
  | S fuel =>
      match s with
      | String c rest =>
          if Ascii.eqb c quote then
            match parse_string rest with
            | Some (key, String ":" rest') =>
                match parse_value fuel rest' with
                | Some (v, String "," rest'') =>
                    match parse_members fuel rest'' with
                    | Some (fields, rest3) => Some ((key, v) :: fields, rest3)
                    | None => None
                    end
                | Some (v, String "}" rest'') => Some ([(key, v)], rest'')
                | _ => None
                end
            | _ => None
            end
          else None
      | EmptyString => None
      end
  end.

Definition parse (s : string) : outcome json :=
  match parse_value (S (String.length s)) s with
  | Some (v, EmptyString) => Return v
  | _ => Throw (Error "Unexpected token in JSON")
  end.

#[export] Instance runtime : Runtime :=
  {| JSON_stringify := stringify; JSON_parse := parse |}.

(** The users table: rows by id, newest first. *)
Definition table : Type := list (string * json).

Definition field (k : string) (row : json) : json :=
  match row with
  | JObj fields => default JUndefined (snd <$> List.find (fun kv => String.eqb k kv.1) fields)
  | _ => JUndefined
  end.

Definition no_rows : reply :=
  Reply JNull (Some (Error "JSON object requested, multiple (or no) rows returned")) None.

Definition select_one (id : string) (t : table) : reply :=
  match List.find (fun kv => String.eqb id kv.1) t with
  | Some (_, row) => Reply row None None
  | None => no_rows
  end.

Definition insert (row : json) (t : table) : reply * table :=
  match field "id" row with
  | JStr id =>
      match List.find (fun kv => String.eqb id kv.1) t with
      | Some _ =>
          (Reply JNull (Some (Error "duplicate key value violates unique constraint")) None, t)
      | None => (Reply row None None, (id, row) :: t)
      end
  | _ => (Reply JNull (Some (Error "null value in column id")) None, t)
  end.

Definition merge (patch row : json) : json :=
  JObj (foldl (fun acc kv => assign kv.1 kv.2 acc) (spread row) (spread patch)).

Definition update (patch : json) (id : string) (t : table) : reply * table :=
  match List.find (fun kv => String.eqb id kv.1) t with
  | Some (_, row) =>
      (Reply (merge patch row) None None,
       map (fun kv => if String.eqb id kv.1 then (id, merge patch row) else kv) t)
  | None => (no_rows, t)
  end.

Definition remove (id : string) (t : table) : reply * table :=
  (Reply JNull None None, List.filter (fun kv => negb (String.eqb id kv.1)) t).

#[export] Instance store : Supabase table := {|
  users_select_all := fun t => Reply (JArr (map snd t)) None None;
  users_select_one := select_one;
  users_insert := insert;
  users_update := update;
  users_delete := remove;
  users_probe := fun t => Return (Reply JNull None (Some (Z.of_nat (length t))));
  orders_select := fun _ _ _ _ _ => Reply (JArr []) None (Some 0%Z)
|}.

(** A started server with an empty cache and one user. *)
Definition ada : json := JObj [("id", JStr "u1"); ("name", JStr "Ada")].

Definition booted : World :=
  mkWorld true ∅ 0 [] [("u1", ada)] [].

(** The same server with [redis] null. *)
Definition degraded : World := set_redis false booted.

(** The same server once [GET /api/users] and [GET /api/users/u1] have
    been answered. *)
Definition warm : World :=
  run [Serve GET_users; Serve (GET_user "u1")] booted.

Definition reset : exn := Error "read ECONNRESET".

(** The warm server at a moment when the backend rejects the next
    command. *)
Definition unplugged : World := set_faults [Some reset] warm.

Definition rename : json := JObj [("name", JStr "Bea")].

(** A user the routes can address, the id of a user to create, and a
    started server with an empty cache that holds the one user. *)
Definition eve_id : string := "123e4567-e89b-12d3-a456-426614174000".

Definition eve : json := JObj [("id", JStr eve_id); ("name", JStr "Eve")].

Definition new_id : string := "V1StGXR8_Z5jdHi6B-myT".

Definition fay : json := JObj [("name", JStr "Fay")].

Definition opened : World :=
  mkWorld true ∅ 0 [] [(eve_id, eve)] [].

(** A server whose cache holds, under the key of the users listing, a
    text that is not a JSON document. *)
Definition poisoned : World :=
  mkWorld true {["users:all" := ("{", 100)]} 0 [] [("u1", ada)] [].

(** *** A Node to run the script on

    POSIX [path.join]: the non-empty arguments joined by a slash, then
    normalized. [writeFile] takes a string; the examples hand it
    nothing else that Node would take. *)
Fixpoint segments (path : string) : list string :=
  match path with
  | EmptyString => [EmptyString]
  | String c t =>
      if Ascii.eqb c "/" then EmptyString :: segments t
      else match segments t with
           | seg :: rest => String c seg :: rest
           | [] => [String c EmptyString]
           end
  end.

Definition is_empty (s : string) : bool :=
  match s with EmptyString => true | _ => false end.

(** One segment onto the segments kept so far, last first. *)
Definition push (above_root : bool) (kept : list string) (seg : string)
    : list string :=
  if is_empty seg || String.eqb seg "." then kept
  else if String.eqb seg ".." then
    match kept with
    | top :: below => if String.eqb top ".." then seg :: kept else below
    | [] => if above_root then [seg] else []
    end
  else seg :: kept.

Definition ends_with_slash (path : string) : bool :=
  match last (segments path) with
  | Some seg => is_empty seg && negb (is_empty path)
  | None => false
  end.

Definition normalize (path : string) : string :=
  if is_empty path then "." else
  let absolute := String.prefix "/" path in
  let kept := rev (foldl (push (negb absolute)) [] (segments path)) in
  let inner := String.concat "/" kept in
  if is_empty inner then
    if absolute then "/" else if ends_with_slash path then "./" else "."
  else
    (if absolute then "/" else EmptyString) +:+ inner +:+
    (if ends_with_slash path then "/" else EmptyString).

Definition posix_join (parts : list string) : string :=
  normalize (String.concat "/" (filter (fun p => is_empty p = false) parts)).

Definition invalid_data : exn :=
  Error ("The " +:+ quoted "data" +:+
         " argument must be of type string or an instance of Buffer, TypedArray, or DataView.").

Definition text_of (data : json) : outcome string :=
  match data with
  | JStr s => Return s
  | _ => Throw invalid_data
  end.

#[export] Instance node : Script.Node := {|
  Script.cwd := "/repo/mcp-server";
  Script.path_join := posix_join;
  Script.file_data := text_of;
  Script.file_data_string := fun s => eq_refl
|}.

(** A machine with no file, on which nothing has been printed. *)
Definition blank : Script.Machine :=
  Script.mkMachine ∅ ∅ [] [] None.

(** The same, with a file system that takes the directory and the
    first file and rejects the second, leaving it empty. *)
Definition full_disk : Script.Machine :=
  Script.mkMachine ∅ ∅
    [None; None; Some (Error "ENOSPC: no space left on device, write", Some EmptyString)]
    [] None.

(** Answers of [fetch]: the type definitions, a server that is not
    there, a server that answers 500. *)
Definition served : outcome Script.Fetched :=
  Return (Script.mkFetched true
            (Return (JObj [("types", JStr "export type User = { id: string };")]))).

Definition down : outcome Script.Fetched := Throw (Error "fetch failed").

Definition failing : outcome Script.Fetched :=
  Return (Script.mkFetched false (Return JNull)).

End Sample.

(** * Properties *)

Section Properties.

Context {DB : Type}.
Context `{Runtime} `{Supabase DB}.

Notation "x <- m ;; k" := (bind m (fun x => k))
  (at level 100, m at next level, right associativity).
Notation "m ;; k" := (bind m (fun _ => k))
  (at level 100, right associativity).

(** ** Patterns without metacharacters *)

Lemma glob_literal_cons c p text :
  metachar c = false ->
  glob (String c p) text =
    match text with
    | EmptyString => false
    | String d t => Ascii.eqb c d && glob p t
    end.
Proof.
  unfold metachar. intros Hm.
  apply orb_false_iff in Hm as [Hm _]. apply orb_false_iff in Hm as [Hm _].
  apply orb_false_iff in Hm as [Hstar Hany].
  simpl. now rewrite Hstar, Hany.
Qed.

Lemma glob_star text : glob "*" text = true.
Proof.
  induction text as [|d t IH]; [reflexivity|].
  change (glob "*" (String d t)) with (glob "" (String d t) || glob "*" t).
  now rewrite IH.
Qed.

(** A pattern without metacharacters matches itself and nothing else. *)
Lemma glob_literal p k : glob_free p = true -> glob p k = String.eqb p k.
Proof.
  revert k. induction p as [|c p IH]; intros k Hfree.
  - now destruct k.
  - simpl in Hfree. apply andb_true_iff in Hfree as [Hc Hp].
    apply negb_true_iff in Hc. rewrite glob_literal_cons by done.
    destruct k as [|d t]; [done|]. simpl. rewrite IH by done.
    now destruct (Ascii.eqb c d).
Qed.

(** Such a pattern followed by a star matches the keys it is a prefix
    of. *)
Lemma glob_prefix p k :
  glob_free p = true -> glob (p +:+ "*") k = String.prefix p k.
Proof.
  revert k. induction p as [|c p IH]; intros k Hfree.
  - simpl. rewrite glob_star. now destruct k.
  - simpl in Hfree. apply andb_true_iff in Hfree as [Hc Hp].
    apply negb_true_iff in Hc.
    change (String c p +:+ "*") with (String c (p +:+ "*")).
    rewrite glob_literal_cons by done.
    destruct k as [|d t]; [done|]. simpl. rewrite IH by done.
    destruct (Ascii.eqb_spec c d) as [->|Hne]; destruct (ascii_dec _ _); done.
Qed.

#[local] Arguments glob : simpl never.

Implicit Types (w : @World DB) (k cacheKey pattern : string) (e : exn).
Implicit Types (f fetcher : @fetcher_t DB) (ttl : nat) (v : json).

(** ** The world after an operation *)

Lemma live_answered ev w k : live (answered ev w) k = live w k.
Proof. reflexivity. Qed.

Lemma command_rejected {A} ev (run : World -> A * World) w e :
  next_fault w = Some e -> command ev run w = (Throw e, answered ev w).
Proof. intros Hf. unfold command. now rewrite Hf. Qed.

Lemma command_accepted {A} ev (run : World -> A * World) w :
  next_fault w = None ->
  command ev run w = (Return (run (answered ev w)).1, (run (answered ev w)).2).
Proof.
  intros Hf. unfold command. rewrite Hf.
  now destruct (run (answered ev w)).
Qed.

(** [getCachedOrFetch], path by path. *)
Lemma getCachedOrFetch_disabled k f ttl w :
  redis w = false -> getCachedOrFetch k f ttl w = call f w.
Proof. intros Hr. unfold getCachedOrFetch, bind, get_redis. now rewrite Hr. Qed.

Lemma getCachedOrFetch_rejected k f ttl w e :
  redis w = true -> next_fault w = Some e ->
  getCachedOrFetch k f ttl w = (Throw e, answered (EGet k) w).
Proof.
  intros Hr Hf. unfold getCachedOrFetch, bind, get_redis, redis_get.
  rewrite Hr. simpl. now rewrite (command_rejected _ _ _ e).
Qed.

Lemma getCachedOrFetch_hit k f ttl w :
  redis w = true -> next_fault w = None -> truthy (live w k) = true ->
  getCachedOrFetch k f ttl w =
    (JSON_parse (to_arg (live w k)),
     emit (EInfo ("Cache hit: " +:+ k)) (answered (EGet k) w)).
Proof.
  intros Hr Hf Hhit. unfold getCachedOrFetch, bind, get_redis, redis_get.
  rewrite Hr. simpl. rewrite command_accepted by done. simpl.
  rewrite live_answered, Hhit. unfold log. reflexivity.
Qed.

Lemma getCachedOrFetch_miss k f ttl w :
  redis w = true -> next_fault w = None -> truthy (live w k) = false ->
  getCachedOrFetch k f ttl w =
    match call f (answered (EGet k) w) with
    | (Throw e, w1) => (Throw e, w1)
    | (Return v, w1) =>
        match redis_setex k ttl (JSON_stringify v) w1 with
        | (Throw e, w2) => (Throw e, w2)
        | (Return _, w2) => (Return v, emit (EInfo ("Cache set: " +:+ k)) w2)
        end
    end.
Proof.
  intros Hr Hf Hmiss. unfold getCachedOrFetch, bind, get_redis, redis_get.
  rewrite Hr. simpl. rewrite command_accepted by done. simpl.
  rewrite live_answered, Hmiss.
  destruct (call f (answered (EGet k) w)) as [[v|e] w1]; [|done].
  destruct (redis_setex k ttl (JSON_stringify v) w1) as [[[]|e] w2]; done.
Qed.

Lemma issued_refl w : issued w w = [].
Proof. unfold issued. apply drop_all. Qed.

Lemma issued_app w w' evs : trace w' = trace w ++ evs -> issued w w' = evs.
Proof. intros Ht. unfold issued. rewrite Ht. apply drop_app_length. Qed.

(** [invalidateCache], path by path. *)
Lemma invalidateCache_disabled pattern w :
  redis w = false -> invalidateCache pattern w = (Return tt, w).
Proof. intros Hr. unfold invalidateCache, bind, get_redis. now rewrite Hr. Qed.

Lemma invalidateCache_rejected pattern w e :
  redis w = true -> next_fault w = Some e ->
  invalidateCache pattern w = (Throw e, answered (EKeys pattern) w).
Proof.
  intros Hr Hf. unfold invalidateCache, bind, get_redis, redis_keys.
  rewrite Hr. simpl. now rewrite (command_rejected _ _ _ e).
Qed.

Lemma invalidateCache_none pattern w :
  redis w = true -> next_fault w = None -> matching w pattern = [] ->
  invalidateCache pattern w = (Return tt, answered (EKeys pattern) w).
Proof.
  intros Hr Hf Hm. unfold invalidateCache, bind, get_redis, redis_keys.
  rewrite Hr. simpl. rewrite command_accepted by done. simpl.
  change (matching (answered (EKeys pattern) w) pattern) with (matching w pattern).
  now rewrite Hm.
Qed.

Lemma invalidateCache_some pattern w :
  redis w = true -> next_fault w = None -> matching w pattern <> [] ->
  invalidateCache pattern w =
    let keys := matching w pattern in
    let w1 := answered (EKeys pattern) w in
    match next_fault w1 with
    | Some e => (Throw e, answered (EDel keys) w1)
    | None =>
        (Return tt,
         emit (EInfo ("Cache invalidated: " +:+ pretty (length keys)
                      +:+ " keys matching " +:+ pattern))
           (set_keyspace (foldr delete (keyspace w) keys)
              (answered (EDel keys) w1)))
    end.
Proof.
  intros Hr Hf Hm. unfold invalidateCache, bind, get_redis, redis_keys.
  rewrite Hr. simpl. rewrite command_accepted by done. simpl.
  change (matching (answered (EKeys pattern) w) pattern) with (matching w pattern).
  destruct (matching w pattern) as [|k0 keys] eqn:Hk; [done|]. simpl.
  unfold redis_del.
  destruct (next_fault (answered (EKeys pattern) w)) as [e|] eqn:Hf'.
  - now rewrite (command_rejected _ _ _ e).
  - rewrite command_accepted by done. reflexivity.
Qed.

(** [KEYS] answers with the live keys the pattern matches. *)
Lemma elem_of_matching w pattern k :
  k ∈ matching w pattern <-> is_Some (live w k) /\ glob pattern k = true.
Proof.
  unfold matching, live. rewrite list_elem_of_omap. split.
  - intros ([k' [text expiry]] & Hin & Hsome).
    apply elem_of_map_to_list in Hin. simpl in Hsome.
    destruct (clock w <? expiry)%nat eqn:Hlive; [|done].
    destruct (glob pattern k') eqn:Hg; [|done]. simpl in Hsome.
    injection Hsome as <-. rewrite Hin, Hlive. eauto.
  - intros [[text Hl] Hg].
    destruct (keyspace w !! k) as [[text' expiry]|] eqn:Hk; [|done].
    destruct (clock w <? expiry)%nat eqn:Hlive; [|done].
    exists (k, (text', expiry)). split; [now apply elem_of_map_to_list|].
    simpl. now rewrite Hlive, Hg.
Qed.

(** ** Degraded mode (C6) *)

Lemma getCachedOrFetch_off cacheKey fetcher ttl w :
  redis w = false ->
  let r := getCachedOrFetch cacheKey fetcher ttl w in
  r.1 = (fetcher (db w)).1 /\
  issued w r.2 = [EFetch] /\
  db r.2 = (fetcher (db w)).2 /\
  keyspace r.2 = keyspace w /\ faults r.2 = faults w /\ redis r.2 = false.
Proof.
  intros Hr r. subst r. rewrite getCachedOrFetch_disabled by done.
  unfold call. simpl. destruct (fetcher (db w)) as [res d]. simpl.
  repeat split; try done. now apply issued_app.
Qed.

(** C6. When [redis] is null, [getCachedOrFetch] returns what the
    fetcher returns, the fetcher is invoked exactly once, and no Redis
    command is issued: one event, the fetch, is recorded, and the
    keyspace and the pending backend answers are untouched. *)
Theorem degraded_read_is_one_fetch cacheKey fetcher ttl w :
  redis w = false ->
  let r := getCachedOrFetch cacheKey fetcher ttl w in
  r.1 = (fetcher (db w)).1 /\
  issued w r.2 = [EFetch] /\
  db r.2 = (fetcher (db w)).2 /\
  keyspace r.2 = keyspace w /\ faults r.2 = faults w /\ redis r.2 = false.
Proof.
  intros Hr r. subst r.
  unfold getCachedOrFetch, bind, get_redis. rewrite Hr. simpl.
  unfold call. simpl. destruct (fetcher (db w)) as [res d]. simpl.
  repeat split; try done.
  apply issued_app. reflexivity.
Qed.

(** ** Computations that keep a relation *)

Section Frames.

Context (R : @World DB -> @World DB -> Prop).
Context `{!Reflexive R, !Transitive R}.

Lemma keeps_ret {A} (a : A) : keeps R (ret a).
Proof. intros w. reflexivity. Qed.

Lemma keeps_throw {A} e : keeps R (@throw DB A e).
Proof. intros w. reflexivity. Qed.

Lemma keeps_get_redis : keeps R get_redis.
Proof. intros w. reflexivity. Qed.

Lemma keeps_bind {A B} (m : M A) (k : A -> M B) :
  keeps R m -> (forall a, keeps R (k a)) -> keeps R (bind m k).
Proof.
  intros Hm Hk w. unfold bind. specialize (Hm w).
  destruct (m w) as [[a|e] w1]; simpl in *; [|done].
  etransitivity; [exact Hm|apply Hk].
Qed.

Lemma keeps_try_catch {A} (m : M A) (h : exn -> M A) :
  keeps R m -> (forall e, keeps R (h e)) -> keeps R (try_catch m h).
Proof.
  intros Hm Hh w. unfold try_catch. specialize (Hm w).
  destruct (m w) as [[a|e] w1]; simpl in *; [done|].
  etransitivity; [exact Hm|apply Hh].
Qed.

End Frames.

#[local] Instance stays_off_refl : Reflexive (@stays_off DB).
Proof. intros w Hoff. done. Qed.

#[local] Instance stays_off_trans : Transitive (@stays_off DB).
Proof.
  intros w1 w2 w3 H12 H23 Hoff. destruct (H12 Hoff) as [Hoff2 Hc2].
  destruct (H23 Hoff2) as [Hoff3 Hc3]. split; [done|congruence].
Qed.

#[local] Instance same_entry_refl k : Reflexive (@same_entry DB k).
Proof. intros w. done. Qed.

#[local] Instance same_entry_trans k : Transitive (@same_entry DB k).
Proof. intros w1 w2 w3 [H1 H2] [H3 H4]. split; congruence. Qed.

(** ** Once null, always null (C7) *)

Lemma commands_emit ev w :
  commands (emit ev w) = commands w ++ (if is_command ev then [ev] else []).
Proof. unfold commands. simpl. rewrite List.filter_app. simpl. now destruct (is_command ev). Qed.

Lemma stays_off_log ev : is_command ev = false -> keeps (@stays_off DB) (log ev).
Proof.
  intros Hev w Hoff. simpl. split; [done|].
  rewrite commands_emit, Hev. apply app_nil_r.
Qed.

Lemma stays_off_supabase q : keeps (@stays_off DB) (supabase q).
Proof. intros w Hoff. unfold supabase. now destruct (q (db w)). Qed.

Lemma stays_off_getCachedOrFetch k f ttl :
  keeps (@stays_off DB) (getCachedOrFetch k f ttl).
Proof.
  intros w Hoff. rewrite getCachedOrFetch_disabled by done.
  unfold call. simpl. destruct (f (db w)). simpl. split; [done|].
  unfold commands. simpl. rewrite List.filter_app. apply app_nil_r.
Qed.

Lemma stays_off_invalidateCache pattern :
  keeps (@stays_off DB) (invalidateCache pattern).
Proof. intros w Hoff. now rewrite invalidateCache_disabled. Qed.

Lemma stays_off_get_health timestamp : keeps (@stays_off DB) (get_health timestamp).
Proof.
  intros w Hoff. unfold get_health, bind, get_redis.
  destruct (users_probe (db w)); simpl; now rewrite Hoff.
Qed.

Lemma stays_off_handle r : keeps (@stays_off DB) (handle r).
Proof.
  destruct r; simpl.
  - apply keeps_bind; [apply _..|apply stays_off_getCachedOrFetch|intros; apply keeps_ret; apply _].
  - apply keeps_bind; [apply _..|apply stays_off_getCachedOrFetch|intros; apply keeps_ret; apply _].
  - apply keeps_bind; [apply _..|apply stays_off_supabase|]. intros a.
    destruct (error a); [apply keeps_throw; apply _|].
    apply keeps_bind; [apply _..|apply stays_off_invalidateCache|intros; apply keeps_ret; apply _].
  - apply keeps_bind; [apply _..|apply stays_off_supabase|]. intros a.
    destruct (error a); [apply keeps_throw; apply _|].
    apply keeps_bind; [apply _..|apply stays_off_invalidateCache|intros _].
    apply keeps_bind; [apply _..|apply stays_off_invalidateCache|intros; apply keeps_ret; apply _].
  - apply keeps_bind; [apply _..|apply stays_off_supabase|]. intros a.
    destruct (error a); [apply keeps_throw; apply _|].
    apply keeps_bind; [apply _..|apply stays_off_invalidateCache|intros _].
    apply keeps_bind; [apply _..|apply stays_off_invalidateCache|intros; apply keeps_ret; apply _].
  - apply keeps_bind; [apply _..|apply stays_off_getCachedOrFetch|intros; apply keeps_ret; apply _].
  - apply stays_off_get_health.
Qed.

Lemma stays_off_serve r : keeps (@stays_off DB) (serve r).
Proof.
  apply keeps_try_catch; [apply _..|apply stays_off_handle|]. intros e.
  apply keeps_bind; [apply _..|now apply stays_off_log|intros; apply keeps_ret; apply _].
Qed.

Lemma stays_off_step a w : stays_off w (step a w).
Proof.
  destruct a; simpl.
  - apply stays_off_serve.
  - intros Hoff. split; [done|]. unfold commands. simpl.
    rewrite List.filter_app. apply app_nil_r.
  - intros Hoff. done.
  - apply stays_off_getCachedOrFetch.
  - apply stays_off_invalidateCache.
Qed.

Lemma stays_off_run acts w : stays_off w (run acts w).
Proof.
  revert w. induction acts as [|a acts IH]; intros w; simpl; [reflexivity|].
  etransitivity; [apply stays_off_step|apply IH].
Qed.

(** The listener, run for each of [es]: it only logs and nulls
    [redis]. *)
Lemma on_errors_spec es w :
  exists evs,
    on_errors es w
    = (Return tt,
       mkWorld (match es with [] => redis w | _ => false end) (keyspace w)
         (clock w) (faults w) (db w) (trace w ++ evs)) /\
    Forall (fun ev => is_command ev = false) evs.
Proof.
  revert w. induction es as [|e es IH]; intros w.
  - exists []. split; [|constructor]. destruct w. simpl. now rewrite app_nil_r.
  - destruct (IH (set_redis false
                    (emit (EWarn ("⚠️ Redis error:" +:+ " " +:+ message e)) w)))
      as (evs & Hrun & Hevs).
    exists (EWarn ("⚠️ Redis error:" +:+ " " +:+ message e) :: evs).
    split; [|now constructor].
    cbn [on_errors]. unfold bind at 1. unfold on_error, bind, log, put_redis.
    cbn [fst snd]. rewrite Hrun. simpl. rewrite <- app_assoc.
    now destruct es.
Qed.

Lemma startup_spec during w :
  exists evs,
    startup during w
    = (Return tt,
       mkWorld (match during, next_fault w with [], None => true | _, _ => false end)
         (keyspace w) (clock w) (tail (faults w)) (db w) (trace w ++ evs)) /\
    List.filter is_command evs = [EPing].
Proof.
  destruct (on_errors_spec during (set_redis true w)) as (evs & Hrun & Hevs).
  assert (Hnone : List.filter is_command evs = []).
  { clear Hrun. induction Hevs as [|ev evs Hev _ IH]; [done|].
    simpl. now rewrite Hev. }
  unfold startup, bind, put_redis, try_catch. cbn [fst snd].
  rewrite Hrun. cbn [fst snd]. unfold redis_ping, command, log, next_fault.
  cbn [faults redis keyspace clock db trace set_redis].
  change (match faults w with Some e :: _ => Some e | _ => None end)
    with (next_fault w).
  destruct (next_fault w) as [e|] eqn:Hf.
  - exists (evs ++ [EPing; EWarn "⚠️ Redis not available, caching disabled"]).
    split.
    + unfold answered, emit, set_faults, set_redis. simpl.
      rewrite <- !app_assoc. now destruct during.
    + rewrite List.filter_app, Hnone. reflexivity.
  - exists (evs ++ [EPing]). split.
    + unfold answered, emit, set_faults, set_redis. simpl.
      rewrite <- !app_assoc. now destruct during.
    + rewrite List.filter_app, Hnone. reflexivity.
Qed.

Lemma startup_disabled during w e :
  next_fault w = Some e \/ during <> [] -> redis (startup during w).2 = false.
Proof.
  intros Hoff. destruct (startup_spec during w) as (evs & -> & _). simpl.
  destruct Hoff as [->|Hd]; destruct during; done.
Qed.

(** C7. Let [w] be the world right after a start-up whose ping was
    rejected or during which the connection raised an [error] event,
    or right after an [error] event. Whatever happens next (requests,
    further error events, time, direct calls), [redis] is still null
    and not one more Redis command has been issued; there, every
    [getCachedOrFetch] returns what its fetcher returns, issuing the
    fetch and nothing else, and every [invalidateCache] returns at
    once, leaving the world as it is. *)
Theorem disabled_for_good during w0 w e acts :
  ((next_fault w0 = Some e \/ during <> []) /\ w = (startup during w0).2) \/
  w = (on_error e w0).2 ->
  let w1 := run acts w in
  redis w1 = false /\
  commands w1 = commands w /\
  (forall cacheKey fetcher ttl,
     let r := getCachedOrFetch cacheKey fetcher ttl w1 in
     r.1 = (fetcher (db w1)).1 /\ issued w1 r.2 = [EFetch]) /\
  (forall pattern, invalidateCache pattern w1 = (Return tt, w1)).
Proof.
  intros Hdis w1.
  assert (Hoff : redis w = false).
  { destruct Hdis as [[Hf ->]| ->]; [now apply (startup_disabled _ _ e)|done]. }
  destruct (stays_off_run acts w Hoff) as [Hoff1 Hc]. fold w1 in Hoff1, Hc.
  repeat split; try done.
  - now apply getCachedOrFetch_off.
  - now apply getCachedOrFetch_off.
  - intros pattern. now apply invalidateCache_disabled.
Qed.

(** ** A failing fetch (C2) *)

(** C2. On a miss (cache on, [GET] answered, nothing truthy under the
    key), a fetcher that throws [e] makes [getCachedOrFetch] throw that
    same [e]; the commands issued are the [GET] alone, so nothing is
    stored: the keyspace is the one before the call. *)
Theorem failed_fetch_is_not_cached cacheKey fetcher ttl w e d :
  redis w = true -> next_fault w = None -> truthy (live w cacheKey) = false ->
  fetcher (db w) = (Throw e, d) ->
  let r := getCachedOrFetch cacheKey fetcher ttl w in
  r.1 = Throw e /\
  keyspace r.2 = keyspace w /\
  issued w r.2 = [EGet cacheKey; EFetch].
Proof.
  intros Hr Hf Hmiss Hfetch r. subst r.
  rewrite getCachedOrFetch_miss by done. unfold call. simpl.
  rewrite Hfetch. simpl. repeat split.
  apply issued_app. simpl. now rewrite <- app_assoc.
Qed.

(** ** Deleting nothing (C10) *)

(** C10. If no live key matches the pattern, [invalidateCache] issues
    no [DEL]; and whatever the keyspace, a [DEL] it issues carries a
    non-empty list of keys. *)
Theorem invalidate_never_deletes_nothing pattern w :
  let w' := (invalidateCache pattern w).2 in
  (forall keys, EDel keys ∈ issued w w' -> keys <> []) /\
  ((forall k, is_Some (live w k) -> glob pattern k = false) ->
   forall keys, EDel keys ∉ issued w w').
Proof.
  intros w'. subst w'.
  destruct (redis w) eqn:Hr.
  2:{ rewrite invalidateCache_disabled by done. simpl. rewrite issued_refl.
      split; [|intros _]; intros keys Hin; now apply elem_of_nil in Hin. }
  destruct (next_fault w) as [e|] eqn:Hf.
  { rewrite (invalidateCache_rejected _ _ e) by done. simpl.
    rewrite (issued_app w _ [EKeys pattern]) by done.
    split; [|intros _]; intros keys Hin;
      apply list_elem_of_singleton in Hin; discriminate. }
  destruct (matching w pattern) as [|k0 rest] eqn:Hm.
  { rewrite invalidateCache_none by done. simpl.
    rewrite (issued_app w _ [EKeys pattern]) by done.
    split; [|intros _]; intros keys Hin;
      apply list_elem_of_singleton in Hin; discriminate. }
  split.
  - rewrite invalidateCache_some by (done || now rewrite Hm).
    rewrite Hm. simpl.
    destruct (next_fault (answered (EKeys pattern) w)); simpl; intros keys Hin.
    + rewrite (issued_app w _ [EKeys pattern; EDel (k0 :: rest)]) in Hin
        by (simpl; now rewrite <- app_assoc).
      set_unfold in Hin. destruct Hin as [Hin|[Hin|[]]]; simplify_eq; done.
    + erewrite (issued_app w _ [EKeys pattern; EDel (k0 :: rest); _]) in Hin
        by (simpl; now rewrite <- !app_assoc).
      set_unfold in Hin. destruct Hin as [Hin|[Hin|[Hin|[]]]]; simplify_eq; done.
  - intros Hnone. exfalso.
    assert (Hin : k0 ∈ matching w pattern) by (rewrite Hm; left).
    apply elem_of_matching in Hin as [Hlive Hg].
    specialize (Hnone k0 Hlive). congruence.
Qed.

(** ** The entry under a key (C1, C9) *)

Lemma lookup_purge (m : gmap string (string * nat)) (keys : list string) k :
  foldr delete m keys !! k = if decide (k ∈ keys) then None else m !! k.
Proof.
  induction keys as [|k0 keys IH]; cbn [foldr].
  - destruct (decide (k ∈ [])) as [Hin|Hin]; [now apply elem_of_nil in Hin|done].
  - destruct (decide (k0 = k)) as [->|Hne].
    + rewrite lookup_delete_eq.
      destruct (decide (k ∈ k :: keys)) as [Hin|Hin]; [done|].
      exfalso. apply Hin. left.
    + rewrite lookup_delete_ne by done. rewrite IH.
      destruct (decide (k ∈ keys)) as [Hin|Hin];
        destruct (decide (k ∈ k0 :: keys)) as [Hin'|Hin']; try done;
        exfalso; set_solver.
Qed.

Lemma same_entry_log k ev : keeps (@same_entry DB k) (log ev).
Proof. intros w. done. Qed.

Lemma same_entry_supabase k q : keeps (@same_entry DB k) (supabase q).
Proof. intros w. unfold supabase. now destruct (q (db w)). Qed.

Lemma same_entry_invalidateCache k pattern :
  glob pattern k = false -> keeps (@same_entry DB k) (invalidateCache pattern).
Proof.
  intros Hg w. destruct (redis w) eqn:Hr.
  2:{ now rewrite invalidateCache_disabled. }
  destruct (next_fault w) as [e|] eqn:Hf.
  { now rewrite (invalidateCache_rejected _ _ e). }
  destruct (matching w pattern) as [|k0 rest] eqn:Hm.
  { now rewrite invalidateCache_none. }
  rewrite invalidateCache_some by (done || now rewrite Hm). simpl.
  destruct (next_fault (answered (EKeys pattern) w)); [done|].
  split; [|done]. simpl. rewrite lookup_purge.
  destruct (decide (k ∈ matching w pattern)) as [Hin|Hin]; [|done].
  apply elem_of_matching in Hin as [_ Hin]. congruence.
Qed.

Lemma same_entry_getCachedOrFetch k cacheKey f ttl w :
  cacheKey <> k \/ truthy (live w k) = true ->
  same_entry k w (getCachedOrFetch cacheKey f ttl w).2.
Proof.
  intros Hk. destruct (redis w) eqn:Hr.
  2:{ rewrite getCachedOrFetch_disabled by done. unfold call. simpl.
      now destruct (f (db w)). }
  destruct (next_fault w) as [e|] eqn:Hf.
  { now rewrite (getCachedOrFetch_rejected _ _ _ _ e). }
  destruct (truthy (live w cacheKey)) eqn:Hhit.
  { now rewrite getCachedOrFetch_hit. }
  rewrite getCachedOrFetch_miss by done. unfold call. simpl.
  destruct (f (db _)) as [[v|e] d]; [|done]. simpl.
  unfold redis_setex, command.
  destruct (next_fault (set_db _ _)); simpl; [done|]. split; [|done]. simpl.
  apply lookup_insert_ne. destruct Hk as [Hk|Hk]; [done|]. congruence.
Qed.

Lemma same_entry_serve_read k cacheKey f ttl w :
  cacheKey <> k \/ truthy (live w k) = true ->
  same_entry k w
    (try_catch (body <- getCachedOrFetch cacheKey f ttl ;; ret (Response 200 body))
               errorHandler w).2.
Proof.
  intros Hk. pose proof (same_entry_getCachedOrFetch k cacheKey f ttl w Hk) as Hs.
  unfold try_catch, bind.
  now destruct (getCachedOrFetch cacheKey f ttl w) as [[v|e] w1].
Qed.

Lemma same_entry_errorHandler k e : keeps (@same_entry DB k) (errorHandler e).
Proof. intros w. done. Qed.

Lemma same_entry_get_health k timestamp :
  keeps (@same_entry DB k) (get_health timestamp).
Proof.
  intros w. unfold get_health, bind, get_redis, try_catch, redis_ping, command.
  destruct (users_probe (db w)); simpl;
    destruct (redis w); simpl; try done; now destruct (next_fault w).
Qed.

(** An action that neither invalidates the key nor reads through it
    while it is a miss leaves its entry alone; the clock only moves
    forward. *)
Lemma step_keeps_entry a w k :
  touches a k = false ->
  reads a <> Some k \/ truthy (live w k) = true ->
  keyspace (step a w) !! k = keyspace w !! k /\ clock w <= clock (step a w).
Proof.
  intros Ht Hr.
  enough (same_entry k w (step a w) \/ exists n, a = Elapse n) as Hcases.
  { destruct Hcases as [[H1 H2]|[n Hn]]; [split; [done|lia]|].
    subst a. simpl. split; [done|lia]. }
  unfold touches in Ht.
  destruct a as [r|e|n|cacheKey f ttl|pattern]; simpl in *.
  - left. unfold serve. destruct r; simpl in *.
    + apply same_entry_serve_read. destruct Hr; [left; congruence|now right].
    + apply same_entry_serve_read. destruct Hr; [left; congruence|now right].
    + rewrite orb_false_r in Ht.
      apply keeps_try_catch; [apply _..| |apply same_entry_errorHandler].
      apply keeps_bind; [apply _..|apply same_entry_supabase|]. intros a.
      destruct (error a); [apply keeps_throw; apply _|].
      apply keeps_bind; [apply _..|now apply same_entry_invalidateCache|].
      intros; apply keeps_ret; apply _.
    + rewrite orb_false_r in Ht. apply orb_false_iff in Ht as [Ht1 Ht2].
      apply keeps_try_catch; [apply _..| |apply same_entry_errorHandler].
      apply keeps_bind; [apply _..|apply same_entry_supabase|]. intros a.
      destruct (error a); [apply keeps_throw; apply _|].
      apply keeps_bind; [apply _..|now apply same_entry_invalidateCache|intros _].
      apply keeps_bind; [apply _..|now apply same_entry_invalidateCache|].
      intros; apply keeps_ret; apply _.
    + rewrite orb_false_r in Ht. apply orb_false_iff in Ht as [Ht1 Ht2].
      apply keeps_try_catch; [apply _..| |apply same_entry_errorHandler].
      apply keeps_bind; [apply _..|apply same_entry_supabase|]. intros a.
      destruct (error a); [apply keeps_throw; apply _|].
      apply keeps_bind; [apply _..|now apply same_entry_invalidateCache|intros _].
      apply keeps_bind; [apply _..|now apply same_entry_invalidateCache|].
      intros; apply keeps_ret; apply _.
    + apply same_entry_serve_read. destruct Hr; [left; congruence|now right].
    + apply keeps_try_catch; [apply _..|apply same_entry_get_health|apply same_entry_errorHandler].
  - left. done.
  - right. eauto.
  - left. apply same_entry_getCachedOrFetch. destruct Hr; [left; congruence|now right].
  - left. rewrite orb_false_r in Ht. now apply same_entry_invalidateCache.
Qed.

#[local] Instance steady_refl : Reflexive (@steady DB).
Proof. intros w. done. Qed.

#[local] Instance steady_trans : Transitive (@steady DB).
Proof. intros w1 w2 w3 [H1 H2] [H3 H4]. split; congruence. Qed.

(** Composite code keeps what its parts keep. *)
Ltac frame :=
  repeat first
    [ apply keeps_ret; apply _
    | apply keeps_throw; apply _
    | apply keeps_get_redis; apply _
    | apply keeps_bind; [apply _ .. | | intros ?]
    | apply keeps_try_catch; [apply _ .. | | intros ?]
    | match goal with
      | |- keeps _ (if ?b then _ else _) => destruct b
      | |- keeps _ (match ?x with Some _ => _ | None => _ end) => destruct x
      end
    | solve [eauto with frame] ].

Lemma steady_log ev : keeps (@steady DB) (log ev).
Proof. intros w. done. Qed.

Lemma steady_supabase q : keeps (@steady DB) (supabase q).
Proof. intros w. unfold supabase. now destruct (q (db w)). Qed.

Lemma steady_call f : keeps (@steady DB) (call f).
Proof. intros w. unfold call. simpl. now destruct (f (db w)). Qed.

Lemma steady_command {A} ev (run : World -> A * World) :
  (forall w, steady w (run w).2) -> keeps (@steady DB) (command ev run).
Proof.
  intros Hrun w. unfold command. destruct (next_fault w); [done|].
  specialize (Hrun (answered ev w)). now destruct (run (answered ev w)).
Qed.

Lemma steady_redis_ping : keeps (@steady DB) redis_ping.
Proof. now apply steady_command. Qed.

Lemma steady_redis_get k : keeps (@steady DB) (redis_get k).
Proof. now apply steady_command. Qed.

Lemma steady_redis_setex k ttl value : keeps (@steady DB) (redis_setex k ttl value).
Proof. now apply steady_command. Qed.

Lemma steady_redis_keys pattern : keeps (@steady DB) (redis_keys pattern).
Proof. now apply steady_command. Qed.

Lemma steady_redis_del keys : keeps (@steady DB) (redis_del keys).
Proof. now apply steady_command. Qed.

Lemma steady_parse text : keeps (@steady DB) (fun w => (JSON_parse text, w)).
Proof. intros w. done. Qed.

Lemma steady_probe :
  keeps (@steady DB)
    (fun w => match users_probe (db w) with
              | Return _ => (Return "ok", w)
              | Throw _ => (Return "error", w)
              end).
Proof. intros w. simpl. now destruct (users_probe (db w)). Qed.

Create HintDb frame.

#[local] Hint Resolve steady_log steady_supabase steady_call steady_redis_ping
  steady_redis_get steady_redis_setex steady_redis_keys steady_redis_del
  steady_parse steady_probe : frame.

Lemma steady_getCachedOrFetch k f ttl : keeps (@steady DB) (getCachedOrFetch k f ttl).
Proof. unfold getCachedOrFetch. frame. Qed.

Lemma steady_invalidateCache pattern : keeps (@steady DB) (invalidateCache pattern).
Proof. unfold invalidateCache. frame. Qed.

#[local] Hint Resolve steady_getCachedOrFetch steady_invalidateCache : frame.

Lemma steady_serve r : keeps (@steady DB) (serve r).
Proof.
  unfold serve, errorHandler.
  destruct r; simpl;
    unfold get_users, get_user, post_users, patch_user, delete_user,
      get_orders, get_health; frame.
Qed.

Lemma clock_step a w : clock w <= clock (step a w).
Proof.
  destruct a as [r|e|n|cacheKey f ttl|pattern]; simpl.
  - now destruct (steady_serve r w) as [-> _].
  - done.
  - lia.
  - now destruct (steady_getCachedOrFetch cacheKey f ttl w) as [-> _].
  - now destruct (steady_invalidateCache pattern w) as [-> _].
Qed.

Lemma clock_run acts w : clock w <= clock (run acts w).
Proof.
  revert w. induction acts as [|a acts IH]; intros w; simpl; [done|].
  etransitivity; [apply clock_step|apply IH].
Qed.

(** An entry with a truthy text survives whatever does not invalidate
    its key, for as long as it has not expired. *)
Lemma run_keeps_entry acts w k text expiry :
  keyspace w !! k = Some (text, expiry) ->
  truthy (Some text) = true ->
  Forall (fun a => touches a k = false) acts ->
  clock (run acts w) < expiry ->
  keyspace (run acts w) !! k = Some (text, expiry).
Proof.
  revert w. induction acts as [|a acts IH]; intros w Hk Htext Hacts Hclock;
    simpl in *; [done|].
  apply Forall_cons in Hacts as [Ha Hacts].
  apply IH; try done.
  destruct (step_keeps_entry a w k Ha) as [-> _]; [|done].
  right. unfold live. rewrite Hk.
  pose proof (clock_step a w). pose proof (clock_run acts (step a w)).
  destruct (Nat.ltb_spec (clock w) expiry); [done|lia].
Qed.

(** What a populating call leaves under its key. *)
Lemma populates_entry k f ttl w v w' :
  populates k f ttl w v w' ->
  keyspace w' !! k = Some (to_arg (JSON_stringify v), clock w + ttl) /\
  clock w' = clock w.
Proof.
  intros (Hr & Hmiss & Hcall & _).
  destruct (next_fault w) as [e|] eqn:Hf.
  { now rewrite (getCachedOrFetch_rejected _ _ _ _ e) in Hcall. }
  rewrite getCachedOrFetch_miss in Hcall by done.
  unfold call in Hcall. simpl in Hcall.
  destruct (f (db w)) as [[v'|e] d]; [|done]. simpl in Hcall.
  unfold redis_setex, command in Hcall.
  destruct (next_fault (set_db _ _)); [done|]. simpl in Hcall.
  injection Hcall as Hv Hw. subst v' w'. simpl. split; [|done].
  apply lookup_insert_eq.
Qed.

(** What a storing call leaves under its key. *)
Lemma stored_entry k f ttl w v w' :
  stored k f ttl w v w' ->
  keyspace w' !! k = Some (to_arg (JSON_stringify v), clock w + ttl) /\
  clock w' = clock w /\
  ESetex k ttl (to_arg (JSON_stringify v)) ∈ issued w w'.
Proof.
  intros (Hr & Hmiss & Hcall).
  destruct (next_fault w) as [e|] eqn:Hf.
  { now rewrite (getCachedOrFetch_rejected _ _ _ _ e) in Hcall. }
  rewrite getCachedOrFetch_miss in Hcall by done.
  unfold call in Hcall. simpl in Hcall.
  destruct (f (db w)) as [[v'|e] d]; [|done]. simpl in Hcall.
  unfold redis_setex, command in Hcall.
  destruct (next_fault (set_db _ _)); [done|]. simpl in Hcall.
  injection Hcall as Hv Hw. subst v' w'. simpl. split; [|split; [done|]].
  - apply lookup_insert_eq.
  - rewrite (issued_app w _ [EGet k; EFetch;
                              ESetex k ttl (to_arg (JSON_stringify v));
                              EInfo ("Cache set: " +:+ k)]);
      [set_solver|]. simpl. now rewrite <- !app_assoc.
Qed.


(** C9. Let a call of [getCachedOrFetch] have populated [cacheKey] with
    the value [v], and let a later call hit on the entry it stored.
    Then [v] has a serialization, the hit returns the parse of it, and
    what it returns is [v] itself exactly when parsing the serialization
    of [v] gives [v] back. *)
Theorem hit_is_json_round_trip cacheKey fetcher ttl w0 v w1 w2 fetcher' ttl' :
  populates cacheKey fetcher ttl w0 v w1 ->
  keyspace w2 !! cacheKey = keyspace w1 !! cacheKey ->
  redis w2 = true -> next_fault w2 = None ->
  truthy (live w2 cacheKey) = true ->
  let r := getCachedOrFetch cacheKey fetcher' ttl' w2 in
  exists text,
    JSON_stringify v = Some text /\
    r.1 = JSON_parse text /\
    (r.1 = Return v <-> JSON_parse text = Return v).
Proof.
  intros Hpop Hsame Hr Hf Hhit r.
  destruct (populates_entry _ _ _ _ _ _ Hpop) as [Hentry _].
  rewrite Hentry in Hsame.
  assert (Hlive : live w2 cacheKey = Some (to_arg (JSON_stringify v))).
  { unfold live in *. rewrite Hsame in *.
    now destruct (clock w2 <? clock w0 + ttl)%nat. }
  rewrite Hlive in Hhit.
  destruct (JSON_stringify v) as [text|] eqn:Hs; [|done].
  exists text. split; [done|].
  assert (Hres : r.1 = JSON_parse text).
  { subst r. rewrite getCachedOrFetch_hit; try done; rewrite Hlive; done. }
  split; [done|]. now rewrite Hres.
Qed.

(** ** Time to live (C8) *)

#[local] Instance extends_refl P : Reflexive (@extends DB P).
Proof. intros w. exists []. split; [now rewrite app_nil_r|constructor]. Qed.

#[local] Instance extends_trans P : Transitive (@extends DB P).
Proof.
  intros w1 w2 w3 (evs1 & H1 & HP1) (evs2 & H2 & HP2).
  exists (evs1 ++ evs2). split; [|now apply Forall_app].
  now rewrite H2, H1, app_assoc.
Qed.

Lemma extends_same_trace P w w' : trace w' = trace w -> extends P w w'.
Proof. intros Ht. exists []. split; [now rewrite app_nil_r|constructor]. Qed.

Lemma extends_log P ev : P ev -> keeps (@extends DB P) (log ev).
Proof. intros HP w. exists [ev]. split; [done|]. now constructor. Qed.

Lemma extends_supabase P q : keeps (@extends DB P) (supabase q).
Proof.
  intros w. unfold supabase. destruct (q (db w)). now apply extends_same_trace.
Qed.

Lemma extends_call P f : P EFetch -> keeps (@extends DB P) (call f).
Proof.
  intros HP w. unfold call. simpl. destruct (f (db w)).
  exists [EFetch]. split; [done|]. now constructor.
Qed.

Lemma extends_command {A} P ev (run : World -> A * World) :
  P ev -> (forall w, trace (run w).2 = trace w) ->
  keeps (@extends DB P) (command ev run).
Proof.
  intros HP Hrun w. exists [ev]. split; [|now constructor].
  unfold command. destruct (next_fault w); [done|].
  specialize (Hrun (answered ev w)). now destruct (run (answered ev w)).
Qed.

Section Stores.

Variable rule : option (string * nat).

Lemma so_info msg : keeps (@extends DB (stores_only rule)) (log (EInfo msg)).
Proof. now apply extends_log. Qed.

Lemma so_error msg : keeps (@extends DB (stores_only rule)) (log (EError msg)).
Proof. now apply extends_log. Qed.

Lemma so_supabase q : keeps (@extends DB (stores_only rule)) (supabase q).
Proof. apply extends_supabase. Qed.

Lemma so_call f : keeps (@extends DB (stores_only rule)) (call f).
Proof. now apply extends_call. Qed.

Lemma so_ping : keeps (@extends DB (stores_only rule)) redis_ping.
Proof. now apply extends_command. Qed.

Lemma so_get k : keeps (@extends DB (stores_only rule)) (redis_get k).
Proof. now apply extends_command. Qed.

Lemma so_keys pattern : keeps (@extends DB (stores_only rule)) (redis_keys pattern).
Proof. now apply extends_command. Qed.

Lemma so_del keys : keeps (@extends DB (stores_only rule)) (redis_del keys).
Proof. now apply extends_command. Qed.

Lemma so_parse text :
  keeps (@extends DB (stores_only rule)) (fun w => (JSON_parse text, w)).
Proof. intros w. reflexivity. Qed.

Lemma so_probe :
  keeps (@extends DB (stores_only rule))
    (fun w => match users_probe (db w) with
              | Return _ => (Return "ok", w)
              | Throw _ => (Return "error", w)
              end).
Proof. intros w. simpl. destruct (users_probe (db w)); reflexivity. Qed.

#[local] Hint Resolve so_info so_error so_supabase so_call so_ping so_get
  so_keys so_del so_parse so_probe : frame.

Lemma so_invalidateCache pattern :
  keeps (@extends DB (stores_only rule)) (invalidateCache pattern).
Proof. unfold invalidateCache. frame. Qed.

End Stores.

Lemma so_setex k ttl value :
  keeps (@extends DB (stores_only (Some (k, ttl)))) (redis_setex k ttl value).
Proof. now apply extends_command. Qed.

#[local] Hint Resolve so_info so_error so_supabase so_call so_ping so_get
  so_keys so_del so_parse so_probe so_invalidateCache so_setex : frame.

Lemma so_getCachedOrFetch k f ttl :
  keeps (@extends DB (stores_only (Some (k, ttl)))) (getCachedOrFetch k f ttl).
Proof. unfold getCachedOrFetch. frame. Qed.

#[local] Hint Resolve so_getCachedOrFetch : frame.

(** The key and the time to live of a route's [SETEX], if it has one. *)
Lemma so_serve r :
  keeps (@extends DB (stores_only ((fun x => (x.1.1, x.2)) <$> read_of r)))
    (serve r).
Proof.
  unfold serve, errorHandler.
  destruct r; simpl;
    unfold get_users, get_user, post_users, patch_user, delete_user,
      get_orders, get_health; frame.
Qed.

(** C8, as the code has it. Every [SETEX] a route issues carries the
    time to live the route hands to [getCachedOrFetch]: 60 seconds for
    the orders listing, and the default of 300 seconds both for a user
    by id and for the users listing; the other routes store nothing. *)
Theorem ttl_is_the_one_the_route_passes r w key seconds value :
  ESetex key seconds value ∈ issued w (serve r w).2 ->
  match r with
  | GET_orders q => key = orders_key q /\ seconds = 60
  | GET_user id => key = "user:" +:+ id /\ seconds = 300
  | GET_users => key = "users:all" /\ seconds = 300
  | _ => False
  end.
Proof.
  intros Hin. destruct (so_serve r w) as (evs & Ht & HP).
  rewrite (issued_app _ _ _ Ht) in Hin.
  rewrite Forall_forall in HP. specialize (HP _ Hin). simpl in HP.
  destruct r; simpl in HP; simplify_eq; done.
Qed.

(** ** Routes, seen from outside *)

Lemma handle_read r k f ttl :
  read_of r = Some (k, f, ttl) ->
  handle r = (body <- getCachedOrFetch k f ttl ;; ret (Response 200 body)).
Proof. destruct r; simpl; intros Hr; simplify_eq; reflexivity. Qed.

Lemma serve_throw r w e w1 :
  handle r w = (Throw e, w1) ->
  serve r w = (Return (internal_error e), emit (EError (message e)) w1).
Proof. intros Hh. unfold serve, try_catch. now rewrite Hh. Qed.

Lemma serve_return r w resp w1 :
  handle r w = (Return resp, w1) -> serve r w = (Return resp, w1).
Proof. intros Hh. unfold serve, try_catch. now rewrite Hh. Qed.

Lemma handle_write r q w :
  write_of r = Some q ->
  handle r w =
    match error (q (db w)).1 with
    | Some e => (Throw (Error (message e)), set_db (q (db w)).2 w)
    | None =>
        match invalidate_all (invalidates (@Serve DB r)) (set_db (q (db w)).2 w) with
        | (Throw e, w2) => (Throw e, w2)
        | (Return _, w2) => (Return (written r (q (db w)).1), w2)
        end
    end.
Proof.
  destruct r; simpl; intros Hq; simplify_eq;
    unfold post_users, patch_user, delete_user, bind, supabase;
    match goal with |- context [?q (db w)] => destruct (q (db w)) as [rep d] end;
    simpl; destruct (error rep); try done.
  - destruct (invalidateCache _ _) as [[[]|e] w2]; done.
  - destruct (invalidateCache _ _) as [[[]|e] w2]; [|done].
    destruct (invalidateCache _ _) as [[[]|e] w3]; done.
  - destruct (invalidateCache _ _) as [[[]|e] w2]; [|done].
    destruct (invalidateCache _ _) as [[[]|e] w3]; done.
Qed.

Lemma invalidateCache_db pattern w : db (invalidateCache pattern w).2 = db w.
Proof.
  destruct (redis w) eqn:Hr.
  2:{ now rewrite invalidateCache_disabled. }
  destruct (next_fault w) as [e|] eqn:Hf.
  { now rewrite (invalidateCache_rejected _ _ e). }
  destruct (matching w pattern) as [|k0 rest] eqn:Hm.
  { now rewrite invalidateCache_none. }
  rewrite invalidateCache_some by (done || now rewrite Hm). simpl.
  now destruct (next_fault (answered (EKeys pattern) w)).
Qed.

Lemma invalidate_all_db patterns w : db (invalidate_all patterns w).2 = db w.
Proof.
  revert w. induction patterns as [|p rest IH]; intros w; simpl; [done|].
  unfold bind. pose proof (invalidateCache_db p w) as Hp.
  destruct (invalidateCache p w) as [[[]|e] w1]; simpl in *; [|done].
  now rewrite IH.
Qed.

Lemma invalidate_all_rejected pattern rest w e :
  redis w = true -> next_fault w = Some e ->
  invalidate_all (pattern :: rest) w = (Throw e, answered (EKeys pattern) w).
Proof.
  intros Hr Hf. simpl. unfold bind.
  now rewrite (invalidateCache_rejected _ _ e).
Qed.

(** ** Cache errors on the read path (C3) *)

(** C3, as the code has it. While [redis] is non-null, a rejected
    command of the read path is thrown to the caller of
    [getCachedOrFetch]: a rejected [GET], before the fetcher is
    invoked, or on a miss a rejected [SETEX], after the fetcher has
    returned. Nothing is stored, and the read route answers with the
    error handler's 500 and the cache error's message. *)
Theorem cache_error_fails_the_read cacheKey fetcher ttl w e :
  redis w = true ->
  next_fault w = Some e \/
  (next_fault w = None /\ truthy (live w cacheKey) = false /\
   (exists v d, fetcher (db w) = (Return v, d)) /\
   next_fault (answered (EGet cacheKey) w) = Some e) ->
  let r := getCachedOrFetch cacheKey fetcher ttl w in
  r.1 = Throw e /\
  keyspace r.2 = keyspace w /\
  (next_fault w = Some e -> issued w r.2 = [EGet cacheKey]) /\
  (forall rq, read_of rq = Some (cacheKey, fetcher, ttl) ->
              (serve rq w).1 = Return (internal_error e)).
Proof.
  intros Hr Hcases r.
  assert (Hthrow : r.1 = Throw e /\ keyspace r.2 = keyspace w).
  { subst r. destruct Hcases as [Hf|(Hf & Hmiss & (v & d & Hfetch) & Hf')].
    - now rewrite (getCachedOrFetch_rejected _ _ _ _ e).
    - rewrite getCachedOrFetch_miss by done. unfold call. simpl.
      rewrite Hfetch. simpl. unfold redis_setex.
      rewrite (command_rejected _ _ _ e); done. }
  destruct Hthrow as [Hthrow Hsame]. repeat split; try done.
  - intros Hf. subst r. rewrite (getCachedOrFetch_rejected _ _ _ _ e) by done.
    now apply issued_app.
  - intros rq Hread. subst r.
    destruct (getCachedOrFetch cacheKey fetcher ttl w) as [res w1] eqn:Hcall.
    simpl in Hthrow. subst res.
    rewrite (serve_throw rq w e w1); [done|].
    rewrite (handle_read _ _ _ _ Hread). unfold bind. now rewrite Hcall.
Qed.

(** ** Cache errors on the write path (C4) *)

Lemma invalidate_all_off patterns w :
  redis w = false -> invalidate_all patterns w = (Return tt, w).
Proof.
  intros Hr. induction patterns as [|p rest IH]; simpl; [done|].
  unfold bind. now rewrite invalidateCache_disabled.
Qed.

(** C4, as the code has it. Let the write of a create, update or delete
    route have succeeded. The answer then follows the invalidations:
    when one of them throws [e], the route throws, and the caller is
    answered the error handler's 500 with the message of [e]; when they
    all return, the caller is answered the route's success. Either way
    the persistent store keeps the committed write. The invalidations
    throw when the first [KEYS] is rejected while [redis] is non-null;
    they return when [redis] is null. *)
Theorem failed_invalidation_fails_the_write r q w rep d :
  write_of r = Some q -> q (db w) = (rep, d) -> error rep = None ->
  let inv := invalidate_all (invalidates (@Serve DB r)) (set_db d w) in
  db inv.2 = d /\
  match inv.1 with
  | Throw e =>
      serve r w
      = (Return (internal_error e), emit (EError (message e)) inv.2)
  | Return _ => serve r w = (Return (written r rep), inv.2)
  end /\
  (forall e, redis w = true -> next_fault w = Some e -> inv.1 = Throw e) /\
  (redis w = false -> inv.1 = Return tt).
Proof.
  intros Hq Hrun Herr inv. split; [|split; [|split]].
  - apply (invalidate_all_db (invalidates (@Serve DB r)) (set_db d w)).
  - pose proof (handle_write r q w Hq) as Hh. rewrite Hrun in Hh.
    cbn [fst snd] in Hh. rewrite Herr in Hh. fold inv in Hh.
    destruct inv as [[[]|e] w2] eqn:Hinv; simpl.
    + now apply serve_return.
    + now apply serve_throw.
  - intros e Hr Hf. subst inv.
    destruct r; simpl in Hq; simplify_eq; cbn [invalidates];
      now rewrite (invalidate_all_rejected _ _ _ e).
  - intros Hr. subst inv. now rewrite invalidate_all_off.
Qed.

(** ** Invalidation before the answer (C5) *)

#[local] Instance still_gone_refl k : Reflexive (@still_gone DB k).
Proof. intros w Hgone. done. Qed.

#[local] Instance still_gone_trans k : Transitive (@still_gone DB k).
Proof. intros w1 w2 w3 H12 H23 Hgone. auto. Qed.

Lemma live_purged w keys ev k :
  live (emit ev (set_keyspace (foldr delete (keyspace w) keys) w)) k =
    if decide (k ∈ keys) then None else live w k.
Proof.
  unfold live. simpl. rewrite lookup_purge.
  now destruct (decide (k ∈ keys)).
Qed.

Lemma invalidateCache_purges pattern w w' k :
  redis w = true -> invalidateCache pattern w = (Return tt, w') ->
  glob pattern k = true -> live w' k = None.
Proof.
  intros Hr Hinv Hg.
  destruct (next_fault w) as [e|] eqn:Hf.
  { now rewrite (invalidateCache_rejected _ _ e) in Hinv. }
  assert (Hin : live w k = None \/ k ∈ matching w pattern).
  { destruct (live w k) as [text|] eqn:Hl; [right|now left].
    apply elem_of_matching. rewrite Hl. eauto. }
  destruct (matching w pattern) as [|k0 rest] eqn:Hm.
  { rewrite invalidateCache_none in Hinv by done. simplify_eq.
    destruct Hin as [Hin|Hin]; [done|now apply elem_of_nil in Hin]. }
  rewrite invalidateCache_some in Hinv by (done || now rewrite Hm).
  simpl in Hinv. destruct (next_fault (answered (EKeys pattern) w)); [done|].
  simplify_eq. rewrite Hm.
  change (live _ k) with
    (live (emit (EInfo ("Cache invalidated: " +:+ pretty (length (k0 :: rest))
                        +:+ " keys matching " +:+ pattern))
             (set_keyspace (foldr delete (keyspace w) (k0 :: rest)) w)) k).
  rewrite live_purged. destruct (decide (k ∈ k0 :: rest)); [done|].
  destruct Hin as [Hin|Hin]; done.
Qed.

Lemma still_gone_invalidateCache k pattern :
  keeps (@still_gone DB k) (invalidateCache pattern).
Proof.
  intros w Hgone. destruct (redis w) eqn:Hr.
  2:{ now rewrite invalidateCache_disabled. }
  destruct (next_fault w) as [e|] eqn:Hf.
  { now rewrite (invalidateCache_rejected _ _ e). }
  destruct (matching w pattern) as [|k0 rest] eqn:Hm.
  { now rewrite invalidateCache_none. }
  rewrite invalidateCache_some by (done || now rewrite Hm). simpl.
  destruct (next_fault (answered (EKeys pattern) w)); [done|]. simpl.
  change (live _ k) with
    (live (emit (EInfo ("Cache invalidated: "
                        +:+ pretty (length (matching w pattern))
                        +:+ " keys matching " +:+ pattern))
             (set_keyspace (foldr delete (keyspace w) (matching w pattern)) w)) k).
  rewrite live_purged. now destruct (decide (k ∈ matching w pattern)).
Qed.

Lemma still_gone_invalidate_all k patterns :
  keeps (@still_gone DB k) (invalidate_all patterns).
Proof.
  induction patterns as [|p rest IH]; simpl; [apply keeps_ret; apply _|].
  apply keeps_bind; [apply _ ..|apply still_gone_invalidateCache|done].
Qed.

Lemma steady_invalidate_all patterns : keeps (@steady DB) (invalidate_all patterns).
Proof.
  induction patterns as [|p rest IH]; simpl; [apply keeps_ret; apply _|].
  apply keeps_bind; [apply _ ..|apply steady_invalidateCache|done].
Qed.

Lemma invalidate_all_purges patterns w w' k :
  redis w = true -> invalidate_all patterns w = (Return tt, w') ->
  existsb (fun p => glob p k) patterns = true -> live w' k = None.
Proof.
  revert w. induction patterns as [|p rest IH]; intros w Hr Hinv Hex;
    simpl in *; [done|].
  unfold bind in Hinv.
  destruct (invalidateCache p w) as [[[]|e] w1] eqn:Hp; [|done].
  pose proof (steady_invalidateCache p w) as [_ Hr1]. rewrite Hp in Hr1.
  simpl in Hr1. rewrite Hr in Hr1.
  destruct (glob p k) eqn:Hg; simpl in Hex.
  - pose proof (still_gone_invalidate_all k rest w1) as Hgone.
    rewrite Hinv in Hgone. apply Hgone.
    now apply (invalidateCache_purges p w).
  - now apply (IH w1).
Qed.

Lemma purges_touches r k :
  purges r k = true ->
  existsb (fun p => glob p k) (invalidates (@Serve DB r)) = true.
Proof.
  assert (Hlist : glob "users:*" k = String.prefix "users:" k)
    by now apply (glob_prefix "users:").
  assert (Hone : forall id, glob_free id = true ->
            glob ("user:" +:+ id) k = String.eqb k ("user:" +:+ id)).
  { intros id Hid. rewrite glob_literal by done. apply String.eqb_sym. }
  destruct r; simpl; try done; rewrite Hlist, orb_false_r; try done.
  - intros Hp. apply orb_true_iff in Hp as [Hp|Hp]; [|now rewrite Hp, orb_true_r].
    apply andb_true_iff in Hp as [Hid Hp]. now rewrite Hone, Hp.
  - intros Hp. apply orb_true_iff in Hp as [Hp|Hp]; [|now rewrite Hp, orb_true_r].
    apply andb_true_iff in Hp as [Hid Hp]. now rewrite Hone, Hp.
Qed.

Lemma elem_of_issued w w' evs ev :
  trace w' = trace w ++ evs -> ev ∈ evs -> ev ∈ issued w w'.
Proof. intros Ht Hin. now rewrite (issued_app _ _ _ Ht). Qed.

Lemma miss_fetches k f ttl w :
  redis w = true -> next_fault w = None -> truthy (live w k) = false ->
  EFetch ∈ issued w (getCachedOrFetch k f ttl w).2.
Proof.
  intros Hr Hf Hmiss. rewrite getCachedOrFetch_miss by done.
  unfold call. simpl. destruct (f (db _)) as [[v|e] d]; simpl.
  - unfold redis_setex, command. destruct (next_fault (set_db _ _)); simpl.
    + eapply (elem_of_issued _ _ [EGet k; EFetch; _]);
        [simpl; now rewrite <- !app_assoc|set_solver].
    + eapply (elem_of_issued _ _ [EGet k; EFetch; _; _]);
        [simpl; now rewrite <- !app_assoc|set_solver].
  - eapply (elem_of_issued _ _ [EGet k; EFetch]);
      [simpl; now rewrite <- !app_assoc|set_solver].
Qed.

(** When a write route has answered with success, nothing is live
    under the keys its patterns stand for, nor under a key that had
    nothing live before. *)
Lemma write_leaves_nothing_live r w resp w' key :
  serve r w = (Return resp, w') -> code resp <> 500 ->
  purges r key = true \/ (write_of r <> None /\ live w key = None) ->
  redis w' = true -> live w' key = None.
Proof.
  intros Hserve Hcode Hkey Hr.
  destruct (write_of r) as [q|] eqn:Hq;
    [|destruct Hkey as [Hkey|[Hkey _]]; [destruct r|]; done].
  unfold serve, try_catch in Hserve. rewrite (handle_write _ _ _ Hq) in Hserve.
  destruct (q (db w)) as [rep d]. cbn [fst snd] in Hserve.
  unfold errorHandler, bind, log, ret in Hserve.
  destruct (error rep); [simpl in Hserve; simplify_eq; done|].
  destruct (invalidate_all (invalidates (@Serve DB r)) (set_db d w))
    as [[[]|e] w2] eqn:Hinv; simpl in Hserve; simplify_eq; try done.
  pose proof (steady_invalidate_all (invalidates (@Serve DB r)) (set_db d w))
    as [_ Hr0].
  rewrite Hinv in Hr0. simpl in Hr0. rewrite Hr in Hr0.
  destruct Hkey as [Hkey|[_ Hgone]].
  - apply (invalidate_all_purges _ (set_db d w) _ key (eq_sym Hr0) Hinv).
    now apply purges_touches.
  - pose proof (still_gone_invalidate_all key (invalidates (@Serve DB r))
                  (set_db d w) Hgone) as Hgone'.
    now rewrite Hinv in Hgone'.
Qed.

(** So the next [getCachedOrFetch] for such a key invokes its fetcher
    (its [GET] being answered). *)
Lemma write_then_read_fetches r w resp w' key fetcher ttl :
  serve r w = (Return resp, w') -> code resp <> 500 ->
  purges r key = true \/ (write_of r <> None /\ live w key = None) ->
  next_fault w' = None ->
  EFetch ∈ issued w' (getCachedOrFetch key fetcher ttl w').2.
Proof.
  intros Hserve Hcode Hkey Hf.
  destruct (redis w') eqn:Hr.
  - apply miss_fetches; try done.
    now rewrite (write_leaves_nothing_live r w resp w' key).
  - destruct (getCachedOrFetch_off key fetcher ttl w' Hr) as (_ & Hissued & _).
    rewrite Hissued. set_solver.
Qed.

(** *** The keys of a server that runs *)

Lemma fits_length shape s :
  fits shape s = true -> String.length s = length shape.
Proof.
  revert s. induction shape as [|test shape IH]; intros [|c t]; simpl; try done.
  intros Hf. apply andb_true_iff in Hf as [_ Hf]. now rewrite (IH t).
Qed.

Lemma fits_glob_free shape s :
  Forall (fun test : ascii -> bool =>
            forall c, test c = true -> metachar c = false) shape ->
  fits shape s = true -> glob_free s = true.
Proof.
  intros Hshape. revert s.
  induction Hshape as [|test shape Htest _ IH]; intros [|c t]; simpl; try done.
  intros Hf. apply andb_true_iff in Hf as [Hc Hf].
  now rewrite (Htest c Hc), (IH t).
Qed.

Ltac by_character c :=
  destruct c as [[] [] [] [] [] [] [] []]; vm_compute; congruence.

Lemma hex_plain c : hex c = true -> metachar c = false.
Proof. by_character c. Qed.

Lemma dash_plain c : Ascii.eqb "-" c = true -> metachar c = false.
Proof. by_character c. Qed.

Lemma urn_plain :
  Forall (fun test : ascii -> bool =>
            forall c, test c = true -> metachar c = false) urn_shape.
Proof. repeat constructor; intros c; by_character c. Qed.

Lemma uuid_plain :
  Forall (fun test : ascii -> bool =>
            forall c, test c = true -> metachar c = false) uuid_shape.
Proof.
  unfold uuid_shape. simpl.
  repeat constructor; first [apply hex_plain | apply dash_plain].
Qed.

Lemma uuid_glob_free id : uuid id = true -> glob_free id = true.
Proof.
  unfold uuid. intros Hid. apply orb_true_iff in Hid as [Hid|Hid].
  - now apply (fits_glob_free uuid_shape); [apply uuid_plain|].
  - apply (fits_glob_free (urn_shape ++ uuid_shape)); [|done].
    apply Forall_app. split; [apply urn_plain|apply uuid_plain].
Qed.

Lemma nanoid_not_uuid id : from_nanoid id = true -> uuid id = false.
Proof.
  unfold from_nanoid, uuid. intros Hid. apply fits_length in Hid.
  apply orb_false_iff.
  split; apply not_true_is_false; intros Hu; apply fits_length in Hu;
    rewrite Hid in Hu; discriminate Hu.
Qed.

(** Nothing that happens to the server stores under, or invalidates,
    a [user:<id>] key whose id is not a uuid. *)
Lemma happens_spares (a : @action DB) id :
  happens a = true -> uuid id = false ->
  touches a ("user:" +:+ id) = false /\ reads a <> Some ("user:" +:+ id).
Proof.
  intros Ha Hid.
  assert (Hlist : glob "users:*" ("user:" +:+ id) = false)
    by now rewrite (glob_prefix "users:").
  assert (Hone : forall id', uuid id' = true ->
            glob ("user:" +:+ id') ("user:" +:+ id) = false).
  { intros id' Hid'.
    rewrite glob_literal by (simpl; now apply uuid_glob_free).
    apply String.eqb_neq. intros Heq.
    unfold String.app in Heq. simpl in Heq. congruence. }
  unfold touches.
  destruct a as [[]| | | |]; simpl in *; try done;
    rewrite ?Hlist, ?Hone by done; split; try done.
  intros Heq. unfold String.app in Heq. simpl in Heq. congruence.
Qed.

Lemma uuid_keyed_step a w :
  happens a = true -> uuid_keyed w -> uuid_keyed (step a w).
Proof.
  intros Ha Hw id Hsome. destruct (uuid id) eqn:Hid; [done|].
  destruct (happens_spares a id Ha Hid) as [Ht Hr].
  destruct (step_keeps_entry a w _ Ht (or_introl Hr)) as [Hk _].
  rewrite Hk in Hsome. now rewrite (Hw id Hsome) in Hid.
Qed.

Lemma uuid_keyed_run acts w :
  Forall (fun a => happens a = true) acts -> uuid_keyed w ->
  uuid_keyed (run acts w).
Proof.
  revert w. induction acts as [|a acts IH]; intros w Hacts Hw; simpl; [done|].
  apply Forall_cons in Hacts as [Ha Hacts].
  apply IH; [done|]. now apply uuid_keyed_step.
Qed.


(** * Further properties *)

(** ** The miss path *)

Lemma getCachedOrFetch_stored k f ttl w v d :
  redis w = true -> next_fault w = None -> truthy (live w k) = false ->
  f (db w) = (Return v, d) -> next_fault (answered (EGet k) w) = None ->
  getCachedOrFetch k f ttl w =
    (Return v,
     emit (EInfo ("Cache set: " +:+ k))
       (set_keyspace
          (<[k := (to_arg (JSON_stringify v), clock w + ttl)]> (keyspace w))
          (answered (ESetex k ttl (to_arg (JSON_stringify v)))
             (set_db d (emit EFetch (answered (EGet k) w)))))).
Proof.
  intros Hr Hf Hmiss Hfetch Hf'. rewrite getCachedOrFetch_miss by done.
  unfold call. simpl. rewrite Hfetch. simpl.
  unfold redis_setex. rewrite command_accepted by done. reflexivity.
Qed.

(** X1. On a miss whose fetcher returns [v] and whose [SETEX] is
    answered, the caller gets [v] itself, not its JSON round trip; the
    text of [v] is stored under the key, to expire [ttl] seconds from
    now; the call has issued the [GET], the fetch and the [SETEX], in
    that order, and the persistent store is as the fetcher left it. *)
Theorem miss_returns_the_fetched_value cacheKey fetcher ttl w v d :
  redis w = true -> next_fault w = None ->
  truthy (live w cacheKey) = false ->
  fetcher (db w) = (Return v, d) ->
  next_fault (answered (EGet cacheKey) w) = None ->
  let r := getCachedOrFetch cacheKey fetcher ttl w in
  r.1 = Return v /\
  keyspace r.2
  = <[cacheKey := (to_arg (JSON_stringify v), clock w + ttl)]> (keyspace w) /\
  issued w r.2
  = [EGet cacheKey; EFetch;
     ESetex cacheKey ttl (to_arg (JSON_stringify v));
     EInfo ("Cache set: " +:+ cacheKey)] /\
  db r.2 = d.
Proof.
  intros Hr Hf Hmiss Hfetch Hf' r. subst r.
  rewrite (getCachedOrFetch_stored _ _ _ _ v d) by done. simpl.
  repeat split. apply issued_app. simpl. now rewrite <- !app_assoc.
Qed.

(** ** Expiry *)

(** X2. Hits do not prolong an entry. Let a call have populated
    [cacheKey] for [ttl] seconds; whatever requests, calls and error
    events follow before the entry expires (without invalidating the
    key), a call made once [ttl] seconds have passed since the entry
    was stored misses and invokes its fetcher. *)
Theorem expired_entry_is_fetched_again
    cacheKey fetcher ttl w0 v w1 acts n fetcher' ttl' :
  populates cacheKey fetcher ttl w0 v w1 ->
  Forall (fun a => touches a cacheKey = false) acts ->
  clock (run acts w1) < clock w0 + ttl ->
  clock w0 + ttl <= clock (run acts w1) + n ->
  let w2 := step (Elapse n) (run acts w1) in
  redis w2 = true -> next_fault w2 = None ->
  EFetch ∈ issued w2 (getCachedOrFetch cacheKey fetcher' ttl' w2).2.
Proof.
  intros Hpop Hacts Hbefore Hafter w2 Hr Hf.
  destruct (populates_entry _ _ _ _ _ _ Hpop) as [Hentry _].
  destruct Hpop as (_ & _ & _ & Htext).
  assert (Hk : keyspace w2 !! cacheKey
               = Some (to_arg (JSON_stringify v), clock w0 + ttl)).
  { subst w2. simpl. apply run_keeps_entry; try done.
    now destruct (JSON_stringify v). }
  apply miss_fetches; try done.
  unfold live. rewrite Hk.
  destruct (Nat.ltb_spec (clock w2) (clock w0 + ttl)) as [Hlt|Hge]; [|done].
  subst w2. simpl in Hlt. lia.
Qed.

(** ** An entry that does not parse *)

(** X3. A hit is parsed without a guard: when the text under the key is
    not a JSON document, [getCachedOrFetch] throws the parser's error.
    The fetcher is not invoked and the entry stays, so the same happens
    at every call until the entry expires or is invalidated; a read
    route answers 500. *)
Theorem unparsable_entry_fails_the_read cacheKey fetcher ttl w text e :
  redis w = true -> next_fault w = None ->
  live w cacheKey = Some text -> truthy (Some text) = true ->
  JSON_parse text = Throw e ->
  let r := getCachedOrFetch cacheKey fetcher ttl w in
  r.1 = Throw e /\
  (EFetch ∉ issued w r.2) /\
  keyspace r.2 = keyspace w /\
  (forall rq, read_of rq = Some (cacheKey, fetcher, ttl) ->
              (serve rq w).1 = Return (internal_error e)).
Proof.
  intros Hr Hf Hlive Htext Hparse r.
  assert (Hcall : getCachedOrFetch cacheKey fetcher ttl w
                  = (Throw e, emit (EInfo ("Cache hit: " +:+ cacheKey))
                                (answered (EGet cacheKey) w))).
  { rewrite getCachedOrFetch_hit by (done || now rewrite Hlive).
    rewrite Hlive. simpl. now rewrite Hparse. }
  subst r. rewrite Hcall. simpl. repeat split.
  - rewrite (issued_app w _ [EGet cacheKey; EInfo ("Cache hit: " +:+ cacheKey)])
      by (simpl; now rewrite <- app_assoc).
    set_solver.
  - intros rq Hread.
    erewrite serve_throw; [done|].
    rewrite (handle_read _ _ _ _ Hread). unfold bind. now rewrite Hcall.
Qed.

(** ** What an invalidation leaves *)

Lemma matching_nil w pattern :
  (forall k, glob pattern k = true -> live w k = None) ->
  matching w pattern = [].
Proof.
  intros Hnone. apply elem_of_nil_inv. intros k Hin.
  apply elem_of_matching in Hin as [[text Hlive] Hg].
  rewrite (Hnone k Hg) in Hlive. discriminate.
Qed.

Lemma invalidateCache_cases pattern w :
  redis w = true ->
  (exists e, (invalidateCache pattern w).1 = Throw e /\
             keyspace (invalidateCache pattern w).2 = keyspace w) \/
  ((invalidateCache pattern w).1 = Return tt /\
   keyspace (invalidateCache pattern w).2
   = foldr delete (keyspace w) (matching w pattern) /\
   clock (invalidateCache pattern w).2 = clock w).
Proof.
  intros Hr. destruct (next_fault w) as [e|] eqn:Hf.
  { left. exists e. now rewrite (invalidateCache_rejected _ _ e). }
  destruct (matching w pattern) as [|k0 rest] eqn:Hm.
  { right. now rewrite invalidateCache_none. }
  rewrite invalidateCache_some by (done || now rewrite Hm). rewrite Hm. simpl.
  destruct (next_fault (answered (EKeys pattern) w)) as [e|]; simpl.
  - left. now exists e.
  - now right.
Qed.

(** X4. An invalidation is all or nothing. With the cache on, when
    [invalidateCache] returns, no live key matches the pattern any
    more, and every key the pattern does not match has the entry it
    had; when it throws (a rejected [KEYS] or [DEL]), the keyspace is
    as it was. *)
Theorem invalidation_is_all_or_nothing pattern w :
  redis w = true ->
  let r := invalidateCache pattern w in
  match r.1 with
  | Return _ =>
      matching r.2 pattern = [] /\
      (forall k, glob pattern k = false ->
                 keyspace r.2 !! k = keyspace w !! k)
  | Throw _ => keyspace r.2 = keyspace w
  end.
Proof.
  intros Hr r. subst r.
  destruct (invalidateCache_cases pattern w Hr) as [(e & -> & Hk)|(Hret & Hk & Hc)];
    [done|].
  destruct (invalidateCache pattern w) as [[[]|e] w'] eqn:Hinv; [|done].
  simpl in *. split.
  - apply matching_nil. intros k Hg.
    now apply (invalidateCache_purges pattern w w').
  - intros k Hg. rewrite Hk, lookup_purge.
    destruct (decide (k ∈ matching w pattern)) as [Hin|Hin]; [|done].
    apply elem_of_matching in Hin as [_ Hin]. congruence.
Qed.

(** X5. Invalidating twice is invalidating once. Right after an
    [invalidateCache] that returned (cache on), a second one with the
    same pattern finds nothing: it issues its [KEYS] and no [DEL], and
    leaves the keyspace alone. *)
Theorem second_invalidation_finds_nothing pattern w w' :
  redis w = true -> invalidateCache pattern w = (Return tt, w') ->
  next_fault w' = None ->
  let r := invalidateCache pattern w' in
  r.1 = Return tt /\
  issued w' r.2 = [EKeys pattern] /\
  keyspace r.2 = keyspace w'.
Proof.
  intros Hr Hinv Hf r. subst r.
  assert (Hr' : redis w' = true).
  { pose proof (steady_invalidateCache pattern w) as [_ Hs].
    rewrite Hinv in Hs. simpl in Hs. congruence. }
  assert (Hm : matching w' pattern = []).
  { apply matching_nil. intros k Hg.
    now apply (invalidateCache_purges pattern w w'). }
  rewrite invalidateCache_none by done. simpl. repeat split.
  now apply issued_app.
Qed.

(** ** A write the store refuses *)

(** X6. When the persistent store answers the write of a create, update
    or delete route with an error, the route throws a new error with
    that message before any invalidation: the caller is answered 500
    with the store's message, no Redis command is issued, and the
    keyspace is as it was. *)
Theorem refused_write_invalidates_nothing r q w rep d e :
  write_of r = Some q -> q (db w) = (rep, d) -> error rep = Some e ->
  let served := serve r w in
  served.1 = Return (internal_error (Error (message e))) /\
  issued w served.2 = [EError (message e)] /\
  keyspace served.2 = keyspace w /\
  db served.2 = d.
Proof.
  intros Hq Hrun Herr served. subst served.
  rewrite (serve_throw r w (Error (message e)) (set_db d w)).
  - simpl. repeat split. now apply issued_app.
  - rewrite (handle_write _ _ _ Hq), Hrun. cbn [fst snd]. now rewrite Herr.
Qed.

(** ** Every request is answered *)

Lemma get_health_returns timestamp w :
  exists body, (get_health timestamp w).1 = Return (Response 200 body).
Proof.
  unfold get_health, bind, get_redis, try_catch, redis_ping, command.
  destruct (users_probe (db w)); simpl;
    destruct (redis w); simpl; eauto; destruct (next_fault w); simpl; eauto.
Qed.

Lemma handle_codes r w resp :
  (handle r w).1 = Return resp -> code resp ∈ [200; 201; 204].
Proof.
  intros Hh. destruct (read_of r) as [[[k f] ttl]|] eqn:Hread.
  { rewrite (handle_read _ _ _ _ Hread) in Hh. unfold bind in Hh.
    destruct (getCachedOrFetch k f ttl w) as [[v|e] w1]; simpl in Hh; [|done].
    simplify_eq. set_solver. }
  destruct (write_of r) as [q|] eqn:Hq.
  { rewrite (handle_write _ _ _ Hq) in Hh.
    destruct (error (q (db w)).1); [done|].
    destruct (invalidate_all _ _) as [[[]|e] w2]; simpl in Hh; [|done].
    simplify_eq. destruct r; simpl in *; try done; set_solver. }
  destruct r; simpl in *; try done.
  destruct (get_health_returns timestamp w) as [body Hb].
  rewrite Hb in Hh. simplify_eq. set_solver.
Qed.

(** X7. Whatever a route does, the caller gets a response: [serve]
    never throws. The status is 200, 201 or 204 when the route
    returned and 500 exactly when it threw, whatever it threw: a user
    that does not exist is a 500 with the store's message, not a 404. *)
Theorem every_request_is_answered r w :
  exists resp,
    (serve r w).1 = Return resp /\
    code resp ∈ [200; 201; 204; 500] /\
    (code resp = 500 <-> exists e, (handle r w).1 = Throw e) /\
    (forall e, (handle r w).1 = Throw e -> resp = internal_error e).
Proof.
  destruct (handle r w) as [[resp|e] w1] eqn:Hh.
  - exists resp. rewrite (serve_return _ _ _ _ Hh). simpl.
    pose proof (handle_codes r w resp) as Hc. rewrite Hh in Hc.
    specialize (Hc eq_refl). repeat split; try done.
    + set_solver.
    + intros H500. rewrite H500 in Hc. set_solver.
    + intros [e He]. discriminate.
  - exists (internal_error e). rewrite (serve_throw _ _ _ _ Hh). simpl.
    repeat split; try done.
    + set_solver.
    + eauto.
    + intros e' He'. now simplify_eq.
Qed.

(** ** The health check *)

(** X8. [GET /health] answers 200 with [status: 'ok'] whatever the
    state of its services. The cache is reported [disabled] when
    [redis] is null, [error] when the ping is rejected and [ok] when it
    is answered; the database is reported [error] only when the probe
    throws, not when it resolves with an error. The check issues the
    ping and nothing else, and changes neither [redis] (a rejected ping
    does not switch the cache off) nor the keyspace nor the store. *)
Theorem health_is_always_ok timestamp w :
  let r := serve (GET_health timestamp) w in
  let database := match users_probe (db w) with
                  | Return _ => "ok"
                  | Throw _ => "error"
                  end in
  let cache := if redis w
               then match next_fault w with Some _ => "error" | None => "ok" end
               else "disabled" in
  r.1 = Return (Response 200
          (JObj [("status", JStr "ok"); ("timestamp", JStr timestamp);
                 ("services", JObj [("database", JStr database);
                                    ("cache", JStr cache)])])) /\
  issued w r.2 = (if redis w then [EPing] else []) /\
  redis r.2 = redis w /\ keyspace r.2 = keyspace w /\ db r.2 = db w.
Proof.
  intros r database cache. subst r database cache.
  unfold serve, try_catch. simpl.
  unfold get_health, bind, get_redis, try_catch, redis_ping, command.
  destruct (users_probe (db w)); simpl;
    destruct (redis w) eqn:Hr; simpl;
    try destruct (next_fault w); simpl; repeat split; try done;
    try apply issued_refl; now apply issued_app.
Qed.

(** ** Start-up *)

(** X9. Start-up always completes, and leaves [redis] non-null exactly
    when its ping was answered and the connection raised no [error]
    event while the ping was awaited: an event nulls [redis] even if
    the ping is answered in the end. Either way the ping is the one
    command start-up has issued, and the keyspace and the store are
    untouched. *)
Theorem startup_enables_iff_no_error during w :
  let r := startup during w in
  r.1 = Return tt /\
  (redis r.2 = true <-> next_fault w = None /\ during = []) /\
  List.filter is_command (issued w r.2) = [EPing] /\
  keyspace r.2 = keyspace w /\ db r.2 = db w.
Proof.
  intros r. subst r.
  destruct (startup_spec during w) as (evs & -> & Hevs). simpl.
  rewrite (issued_app w _ evs) by done.
  repeat split; try done.
  - now destruct during, (next_fault w).
  - now destruct during, (next_fault w).
  - now intros [-> ->].
Qed.

(** ** What a write leaves in the cache *)

Lemma touches_purges r k :
  literal_target r = true ->
  touches (@Serve DB r) k = purges r k.
Proof.
  assert (Hlist : glob "users:*" k = String.prefix "users:" k)
    by now apply (glob_prefix "users:").
  assert (Hone : forall id, glob_free id = true ->
            glob ("user:" +:+ id) k = String.eqb k ("user:" +:+ id)).
  { intros id Hid. rewrite glob_literal by done. apply String.eqb_sym. }
  unfold touches. destruct r; simpl; intros Hid; try done.
  - now rewrite Hlist, orb_false_r.
  - now rewrite Hlist, orb_false_r, Hone, Hid.
  - now rewrite Hlist, orb_false_r, Hone, Hid.
Qed.

(** X10. An invalidation is precise. A create, update or delete route
    (the [id] of an update or a delete having no glob metacharacter)
    changes no entry but those of the keys that start with [users:] and,
    for an update or a delete, of [user:<id>]: the other users' entries
    and the orders listings stay in the cache as they were. *)
Theorem write_leaves_the_other_keys r w k :
  write_of r <> None -> literal_target r = true ->
  purges r k = false ->
  keyspace (serve r w).2 !! k = keyspace w !! k.
Proof.
  intros Hw Hid Hk.
  apply (step_keeps_entry (Serve r) w k).
  - now rewrite touches_purges.
  - left. destruct r; simpl in *; done.
Qed.

(** ** A healthy backend *)

Lemma next_fault_healthy w : faults w = [] -> next_fault w = None.
Proof. intros Hf. unfold next_fault. now rewrite Hf. Qed.

(** With a backend that answers everything, a miss gives what the
    fetcher gives. *)
Lemma miss_result k f ttl w :
  redis w = true -> faults w = [] -> truthy (live w k) = false ->
  (getCachedOrFetch k f ttl w).1 = (f (db w)).1 /\
  db (getCachedOrFetch k f ttl w).2 = (f (db w)).2.
Proof.
  intros Hr Hf Hmiss.
  destruct (f (db w)) as [[v|e] d] eqn:Hfetch.
  - rewrite (getCachedOrFetch_stored _ _ _ _ v d); try done.
    + now apply next_fault_healthy.
    + unfold next_fault. simpl. now rewrite Hf.
  - rewrite getCachedOrFetch_miss by (done || now apply next_fault_healthy).
    unfold call. simpl. now rewrite Hfetch.
Qed.

Lemma serve_read r k f ttl w :
  read_of r = Some (k, f, ttl) ->
  (serve r w).1 = answer_of (getCachedOrFetch k f ttl w).1 /\
  db (serve r w).2 = db (getCachedOrFetch k f ttl w).2.
Proof.
  intros Hread. unfold serve, try_catch.
  rewrite (handle_read _ _ _ _ Hread). unfold bind.
  now destruct (getCachedOrFetch k f ttl w) as [[v|e] w1].
Qed.

Lemma live_empty w k : keyspace w = ∅ -> live w k = None.
Proof. intros Hk. unfold live. now rewrite Hk, lookup_empty. Qed.

Lemma invalidate_all_cold patterns w :
  redis w = true -> faults w = [] -> keyspace w = ∅ ->
  (invalidate_all patterns w).1 = Return tt.
Proof.
  revert w. induction patterns as [|p rest IH]; intros w Hr Hf Hk; [done|].
  simpl. unfold bind. rewrite invalidateCache_none; try done.
  - apply IH; try done. simpl. now rewrite Hf.
  - now apply next_fault_healthy.
  - unfold matching. now rewrite Hk, map_to_list_empty.
Qed.

Lemma serve_write r q w :
  write_of r = Some q ->
  (serve r w).1 =
    match error (q (db w)).1 with
    | Some e => Return (internal_error (Error (message e)))
    | None =>
        match (invalidate_all (invalidates (@Serve DB r))
                 (set_db (q (db w)).2 w)).1 with
        | Return _ => Return (written r (q (db w)).1)
        | Throw e => Return (internal_error e)
        end
    end /\
  db (serve r w).2 = (q (db w)).2.
Proof.
  intros Hq. unfold serve, try_catch. rewrite (handle_write _ _ _ Hq).
  destruct (error (q (db w)).1); [done|].
  pose proof (invalidate_all_db (invalidates (@Serve DB r))
                (set_db (q (db w)).2 w)) as Hdb.
  now destruct (invalidate_all _ _) as [[[]|e] w2].
Qed.

(** X11. A cold cache is no cache. On an empty keyspace and with a
    backend that answers everything, every route but the health check
    answers with the cache on exactly what it answers with [redis]
    null, and leaves the persistent store in the same state. *)
Theorem cold_cache_answers_as_no_cache r w :
  (forall timestamp, r <> GET_health timestamp) ->
  keyspace w = ∅ -> faults w = [] ->
  (serve r (set_redis true w)).1 = (serve r (set_redis false w)).1 /\
  db (serve r (set_redis true w)).2 = db (serve r (set_redis false w)).2.
Proof.
  intros Hr Hk Hf.
  destruct (read_of r) as [[[k f] ttl]|] eqn:Hread.
  { destruct (serve_read r k f ttl (set_redis true w) Hread) as [-> ->].
    destruct (serve_read r k f ttl (set_redis false w) Hread) as [-> ->].
    destruct (miss_result k f ttl (set_redis true w)) as [-> ->]; try done.
    { now rewrite live_empty. }
    now destruct (getCachedOrFetch_off k f ttl (set_redis false w))
      as (-> & _ & -> & _). }
  destruct (write_of r) as [q|] eqn:Hq.
  { destruct (serve_write r q (set_redis true w) Hq) as [-> ->].
    destruct (serve_write r q (set_redis false w) Hq) as [-> ->].
    split; [|done]. simpl. destruct (error (q (db w)).1); [done|].
    rewrite invalidate_all_cold by done.
    now rewrite invalidate_all_off. }
  destruct r; simpl in *; try done. now destruct (Hr timestamp).
Qed.

(** ** Reading what was written *)

Lemma written_key_is_gone r w resp w' k :
  serve r w = (Return resp, w') -> code resp <> 500 ->
  purges r k = true -> redis w' = true -> live w' k = None.
Proof.
  intros Hserve Hcode Hkey Hr.
  destruct (write_of r) as [q|] eqn:Hq; [|destruct r; done].
  unfold serve, try_catch in Hserve. rewrite (handle_write _ _ _ Hq) in Hserve.
  destruct (q (db w)) as [rep d]. cbn [fst snd] in Hserve.
  unfold errorHandler, bind, log, ret in Hserve.
  destruct (error rep); [simpl in Hserve; simplify_eq; done|].
  destruct (invalidate_all (invalidates (@Serve DB r)) (set_db d w))
    as [[[]|e] w2] eqn:Hinv; simpl in Hserve; simplify_eq; try done.
  pose proof (steady_invalidate_all (invalidates (@Serve DB r)) (set_db d w))
    as [_ Hr0].
  rewrite Hinv in Hr0. simpl in Hr0. rewrite Hr in Hr0.
  apply (invalidate_all_purges _ (set_db d w) _ k (eq_sym Hr0) Hinv).
  now apply purges_touches.
Qed.


(** ** How long an entry can live *)

#[local] Instance bounded_refl n : Reflexive (@bounded DB n).
Proof. intros w Hw. done. Qed.

#[local] Instance bounded_trans n : Transitive (@bounded DB n).
Proof. intros w1 w2 w3 H12 H23 Hw. auto. Qed.

Lemma bounded_same n w w' :
  keyspace w' = keyspace w -> clock w' = clock w -> bounded n w w'.
Proof. intros Hk Hc Hw k text expiry. rewrite Hk, Hc. apply Hw. Qed.

Lemma bounded_log n ev : keeps (@bounded DB n) (log ev).
Proof. intros w. now apply bounded_same. Qed.

Lemma bounded_supabase n q : keeps (@bounded DB n) (supabase q).
Proof.
  intros w. unfold supabase. destruct (q (db w)). now apply bounded_same.
Qed.

Lemma bounded_call n f : keeps (@bounded DB n) (call f).
Proof.
  intros w. unfold call. simpl. destruct (f (db w)). now apply bounded_same.
Qed.

Lemma bounded_command {A} n ev (run : World -> A * World) :
  (forall w, bounded n w (run w).2) -> keeps (@bounded DB n) (command ev run).
Proof.
  intros Hrun w. unfold command.
  destruct (next_fault w); [now apply bounded_same|].
  specialize (Hrun (answered ev w)).
  destruct (run (answered ev w)) as [a w1]. simpl in *.
  etransitivity; [|exact Hrun]. now apply bounded_same.
Qed.

Lemma bounded_redis_ping n : keeps (@bounded DB n) redis_ping.
Proof. apply bounded_command. intros w. now apply bounded_same. Qed.

Lemma bounded_redis_get n k : keeps (@bounded DB n) (redis_get k).
Proof. apply bounded_command. intros w. now apply bounded_same. Qed.

Lemma bounded_redis_keys n pattern : keeps (@bounded DB n) (redis_keys pattern).
Proof. apply bounded_command. intros w. now apply bounded_same. Qed.

Lemma bounded_redis_del n keys : keeps (@bounded DB n) (redis_del keys).
Proof.
  apply bounded_command. intros w Hw k text expiry. simpl.
  rewrite lookup_purge. destruct (decide (k ∈ keys)); [done|]. apply Hw.
Qed.

Lemma bounded_redis_setex n k ttl value :
  ttl <= n -> keeps (@bounded DB n) (redis_setex k ttl value).
Proof.
  intros Httl. apply bounded_command. intros w Hw k' text expiry. simpl.
  destruct (decide (k = k')) as [->|Hne].
  - rewrite lookup_insert_eq. intros Heq. simplify_eq. lia.
  - rewrite lookup_insert_ne by done. apply Hw.
Qed.

Lemma bounded_parse n text :
  keeps (@bounded DB n) (fun w => (JSON_parse text, w)).
Proof. intros w. now apply bounded_same. Qed.

Lemma bounded_probe n :
  keeps (@bounded DB n)
    (fun w => match users_probe (db w) with
              | Return _ => (Return "ok", w)
              | Throw _ => (Return "error", w)
              end).
Proof. intros w. simpl. destruct (users_probe (db w)); now apply bounded_same. Qed.

#[local] Hint Resolve bounded_log bounded_supabase bounded_call
  bounded_redis_ping bounded_redis_get bounded_redis_keys bounded_redis_del
  bounded_parse bounded_probe : frame.

Lemma bounded_invalidateCache n pattern :
  keeps (@bounded DB n) (invalidateCache pattern).
Proof. unfold invalidateCache. frame. Qed.

Lemma bounded_getCachedOrFetch n k f ttl :
  ttl <= n -> keeps (@bounded DB n) (getCachedOrFetch k f ttl).
Proof.
  intros Httl. pose proof (bounded_redis_setex n k ttl) as Hsetex.
  unfold getCachedOrFetch. frame.
Qed.

#[local] Hint Resolve bounded_invalidateCache : frame.

Lemma bounded_serve r : keeps (@bounded DB 300) (serve r).
Proof.
  assert (H60 : forall k value,
            keeps (@bounded DB 300) (redis_setex k 60 value))
    by (intros; apply bounded_redis_setex; lia).
  assert (H300 : forall k value,
            keeps (@bounded DB 300) (redis_setex k default_ttl value))
    by (intros; apply bounded_redis_setex; unfold default_ttl; lia).
  unfold serve, errorHandler.
  destruct r; simpl;
    unfold get_users, get_user, post_users, patch_user, delete_user,
      get_orders, get_health; frame.
Qed.

Lemma bounded_step a w : external a = true -> bounded 300 w (step a w).
Proof.
  destruct a as [r|e|n|cacheKey f ttl|pattern]; simpl; try done; intros _.
  - apply bounded_serve.
  - now apply bounded_same.
  - intros Hw k text expiry Hk. simpl in *. specialize (Hw k text expiry Hk). lia.
Qed.

(** X12. No entry outlives five minutes. Over any sequence of requests,
    error events and lapses of time, every entry of the keyspace
    expires at most 300 seconds from the current instant, provided
    that held at the start (as on an empty keyspace): whatever the
    persistent store becomes meanwhile, nothing older is served. *)
Theorem entries_expire_within_300 acts w :
  Forall (fun a => external a = true) acts ->
  within 300 w -> within 300 (run acts w).
Proof.
  revert w. induction acts as [|a acts IH]; intros w Hacts Hw; simpl; [done|].
  apply Forall_cons in Hacts as [Ha Hacts].
  apply IH; [done|]. now apply (bounded_step a w).
Qed.

(** ** Object spread *)

Lemma get_field_assign_eq k v fields : get_field k (assign k v fields) = Some v.
Proof.
  induction fields as [|[k' v'] rest IH]; simpl.
  - now rewrite String.eqb_refl.
  - destruct (String.eqb k k') eqn:Hk; simpl; rewrite ?String.eqb_refl; [done|].
    now rewrite Hk.
Qed.

Lemma get_field_assign_ne k k' v fields :
  k <> k' -> get_field k' (assign k v fields) = get_field k' fields.
Proof.
  intros Hne. induction fields as [|[k0 v0] rest IH]; simpl.
  - destruct (String.eqb_spec k' k); [congruence|done].
  - destruct (String.eqb_spec k k0) as [->|Hk]; simpl.
    + destruct (String.eqb_spec k' k0); [congruence|done].
    + now rewrite IH.
Qed.

(** X14. The server's fields win over the client's. What a create does
    to the persistent store is the insert of a row in which [id],
    [created_at] and [updated_at] are the server's, whatever the body
    gives for them, and every other field is the body's. What an update
    does is the update with a patch in which [updated_at] is the
    server's and every other field, [id] included, is the body's. *)
Theorem server_fields_override_the_body body id created_at updated_at w :
  (exists row,
     db (serve (POST_users body id created_at updated_at) w).2
     = (users_insert (JObj row) (db w)).2 /\
     get_field "id" row = Some (JStr id) /\
     get_field "created_at" row = Some (JStr created_at) /\
     get_field "updated_at" row = Some (JStr updated_at) /\
     (forall k, k ∉ ["id"; "created_at"; "updated_at"] ->
                get_field k row = get_field k (spread body))) /\
  (exists patch,
     db (serve (PATCH_user id body updated_at) w).2
     = (users_update (JObj patch) id (db w)).2 /\
     get_field "updated_at" patch = Some (JStr updated_at) /\
     (forall k, k <> "updated_at" ->
                get_field k patch = get_field k (spread body))).
Proof.
  split.
  - eexists. split.
    { now destruct (serve_write (POST_users body id created_at updated_at)
                      _ w eq_refl) as [_ ->]. }
    repeat split.
    + rewrite !get_field_assign_ne by done. apply get_field_assign_eq.
    + rewrite get_field_assign_ne by done. apply get_field_assign_eq.
    + apply get_field_assign_eq.
    + intros k Hk. rewrite !get_field_assign_ne; set_solver.
  - eexists. split.
    { now destruct (serve_write (PATCH_user id body updated_at)
                      _ w eq_refl) as [_ ->]. }
    split.
    + apply get_field_assign_eq.
    + intros k Hk. now rewrite get_field_assign_ne.
Qed.

(** ** What reads and writes never do *)

#[local] Instance shrinks_refl : Reflexive (@shrinks DB).
Proof. intros w k. now right. Qed.

#[local] Instance shrinks_trans : Transitive (@shrinks DB).
Proof.
  intros w1 w2 w3 H12 H23 k.
  destruct (H23 k) as [H3|H3]; [now left|]. rewrite H3. apply H12.
Qed.

#[local] Instance grows_refl : Reflexive (@grows DB).
Proof. intros w k Hk. done. Qed.

#[local] Instance grows_trans : Transitive (@grows DB).
Proof. intros w1 w2 w3 H12 H23 k Hk. auto. Qed.

Lemma shrinks_same w w' : keyspace w' = keyspace w -> shrinks w w'.
Proof. intros Hk k. right. now rewrite Hk. Qed.

Lemma grows_same w w' : keyspace w' = keyspace w -> grows w w'.
Proof. intros Hk k. now rewrite Hk. Qed.

Lemma shrinks_log ev : keeps (@shrinks DB) (log ev).
Proof. intros w. now apply shrinks_same. Qed.

Lemma shrinks_supabase q : keeps (@shrinks DB) (supabase q).
Proof. intros w. unfold supabase. destruct (q (db w)). now apply shrinks_same. Qed.

Lemma shrinks_redis_ping : keeps (@shrinks DB) redis_ping.
Proof.
  intros w. unfold redis_ping, command.
  destruct (next_fault w); now apply shrinks_same.
Qed.

Lemma shrinks_redis_keys pattern : keeps (@shrinks DB) (redis_keys pattern).
Proof.
  intros w. unfold redis_keys, command.
  destruct (next_fault w); now apply shrinks_same.
Qed.

Lemma shrinks_redis_del keys : keeps (@shrinks DB) (redis_del keys).
Proof.
  intros w. unfold redis_del, command.
  destruct (next_fault w); [now apply shrinks_same|].
  intros k. simpl. rewrite lookup_purge.
  destruct (decide (k ∈ keys)); [now left|now right].
Qed.

Lemma shrinks_probe :
  keeps (@shrinks DB)
    (fun w => match users_probe (db w) with
              | Return _ => (Return "ok", w)
              | Throw _ => (Return "error", w)
              end).
Proof. intros w. simpl. destruct (users_probe (db w)); now apply shrinks_same. Qed.

#[local] Hint Resolve shrinks_log shrinks_supabase shrinks_redis_ping
  shrinks_redis_keys shrinks_redis_del shrinks_probe : frame.

Lemma shrinks_invalidateCache pattern :
  keeps (@shrinks DB) (invalidateCache pattern).
Proof. unfold invalidateCache. frame. Qed.

#[local] Hint Resolve shrinks_invalidateCache : frame.

Lemma shrinks_serve r : read_of r = None -> keeps (@shrinks DB) (serve r).
Proof.
  intros Hread. unfold serve, errorHandler.
  destruct r; simpl in *; try done;
    unfold post_users, patch_user, delete_user, get_health; frame.
Qed.

Lemma grows_log ev : keeps (@grows DB) (log ev).
Proof. intros w. now apply grows_same. Qed.

Lemma grows_call f : keeps (@grows DB) (call f).
Proof. intros w. unfold call. simpl. destruct (f (db w)). now apply grows_same. Qed.

Lemma grows_redis_get k : keeps (@grows DB) (redis_get k).
Proof.
  intros w. unfold redis_get, command.
  destruct (next_fault w); now apply grows_same.
Qed.

Lemma grows_redis_setex k ttl value : keeps (@grows DB) (redis_setex k ttl value).
Proof.
  intros w. unfold redis_setex, command.
  destruct (next_fault w); [now apply grows_same|].
  intros k' Hk'. simpl. destruct (decide (k = k')) as [->|Hne].
  - rewrite lookup_insert_eq. eauto.
  - now rewrite lookup_insert_ne.
Qed.

Lemma grows_parse text : keeps (@grows DB) (fun w => (JSON_parse text, w)).
Proof. intros w. now apply grows_same. Qed.

#[local] Hint Resolve grows_log grows_call grows_redis_get grows_redis_setex
  grows_parse : frame.

Lemma grows_serve r : read_of r <> None -> keeps (@grows DB) (serve r).
Proof.
  intros Hread. unfold serve, errorHandler.
  destruct r; simpl in *; try done;
    unfold get_users, get_user, get_orders, getCachedOrFetch; frame.
Qed.

(** X15. Reads never evict and writes never store. A read route
    removes no entry from the keyspace; a create, update or delete
    route, and the health check, add and change none: after them each
    key has the entry it had, or none. *)
Theorem reads_keep_and_writes_add_nothing r w k :
  (read_of r <> None ->
   is_Some (keyspace w !! k) -> is_Some (keyspace (serve r w).2 !! k)) /\
  (read_of r = None ->
   keyspace (serve r w).2 !! k = None \/
   keyspace (serve r w).2 !! k = keyspace w !! k).
Proof.
  split.
  - intros Hread. now apply grows_serve.
  - intros Hread. now apply shrinks_serve.
Qed.


(** ** The orders listings *)

Lemma touches_orders r x : touches (@Serve DB r) ("orders:" +:+ x) = false.
Proof.
  assert (Hu : forall p, glob (String "u" p) ("orders:" +:+ x) = false).
  { intros p. now rewrite glob_literal_cons. }
  unfold touches.
  destruct r; simpl; try done; now rewrite ?Hu.
Qed.

(** X17. No route invalidates an orders listing. Whatever the request,
    unless it is the read of that very listing, the entry under an
    orders key is after it as it was before: a listing leaves the cache
    by expiry only, a minute after it was stored. *)
Theorem orders_listing_is_never_invalidated r w q :
  reads (@Serve DB r) <> Some (orders_key q) ->
  keyspace (serve r w).2 !! orders_key q = keyspace w !! orders_key q.
Proof.
  intros Hread. apply (step_keeps_entry (Serve r) w (orders_key q)).
  - apply touches_orders.
  - now left.
Qed.

End Properties.

(** * Properties of the script *)

Section ScriptProperties.

Import Script.

Context `{Node}.

Notation "x <- p ;; k" := (Script.bind p (fun x => k))
  (at level 100, p at next level, right associativity).
Notation "p ;; k" := (Script.bind p (fun _ => k))
  (at level 100, right associativity).

(** The [try] block up to the file system is [types_of]. *)
Lemma try_block_types fetch m :
  try_block fetch m =
  match types_of fetch with
  | Throw e => (Throw e, m)
  | Return types =>
      (fs_mkdir sharedDir ;;
       fs_writeFile typesPath types ;;
       console_log ("✅ Types generated successfully at:" +:+ " " +:+ typesPath) ;;
       fs_writeFile clientPath (JStr apiClient) ;;
       console_log ("✅ API client generated at:" +:+ " " +:+ clientPath)) m
  end.
Proof.
  unfold try_block, types_of, Script.bind, await.
  destruct fetch as [response|e]; [|done].
  destruct (res_ok response); cbn; [|done].
  destruct (res_json response) as [parsed|e]; [|done].
  now destruct (destructure_types parsed).
Qed.

(** *** Nothing arrives, nothing is written *)

(** X18. If [fetch] fails, the response is not ok, its body is not JSON
    or is [null], the script calls the file system not once: no file
    and no directory is touched, the error is printed after the
    opening line, and the process exits with code 1. *)
Theorem nothing_is_written_unless_the_types_arrive fetch e m :
  types_of fetch = Throw e ->
  let m' := generateTypes fetch m in
  files m' = files m /\ directories m' = directories m /\
  rejections m' = rejections m /\
  console m' =
    console m ++
    [Log "🔧 Generating types from MCP Server...";
     Err ("❌ Error generating types: " +:+ message e)] /\
  exit_code m' = Some 1.
Proof.
  intros Ht. unfold generateTypes. rewrite try_block_types, Ht. cbn.
  repeat split. now rewrite <- app_assoc.
Qed.

(** *** When the script succeeds *)

Ltac file_system l :=
  unfold generateTypes, fs_mkdir, fs_writeFile, fs_answer, console_log, await,
    Script.throw, Script.bind, accepts;
  cbn; rewrite ?file_data_string;
  destruct l as [|[[? [?|]]|] [|[[? [?|]]|] [|[[? [?|]]|] ?]]];
  cbn; rewrite ?file_data_string; cbn.

(** X19. A process that has not exited ends the script without an exit
    code exactly when the types arrive, [writeFile] takes them, and the
    file system accepts the three calls ([mkdir] and the two
    [writeFile]s); in every other case the exit code is 1. *)
Theorem script_succeeds_iff fetch m :
  exit_code m = None ->
  (exit_code (generateTypes fetch m) = None <->
   (exists types text,
      types_of fetch = Return types /\ file_data types = Return text) /\
   accepts 3 m) /\
  (exit_code (generateTypes fetch m) = None \/
   exit_code (generateTypes fetch m) = Some 1).
Proof.
  intros Hm. unfold generateTypes. rewrite try_block_types.
  destruct m as [f d l c x]. cbn in Hm. subst x.
  destruct (types_of fetch) as [types|e].
  - destruct (file_data types) as [text|e] eqn:Hd.
    + file_system l.
      all: rewrite ?Hd; cbn; rewrite ?file_data_string; cbn.
      all: split; [split|first [now left | now right]].
      all: try (intros Hx;
                first [done | split;
                              [now exists types, text | now repeat constructor]]).
      all: intros [_ Ha]; exfalso.
      all: repeat (apply Forall_cons in Ha as [? Ha]; try done).
    + file_system l.
      all: rewrite ?Hd; cbn.
      all: split; [split|now right]; try done.
      all: intros [(? & ? & [= <-] & ?) _]; congruence.
  - cbn. split; [split|now right]; [done|].
    intros [(? & ? & ? & _) _]. done.
Qed.

(** *** The order of the two files *)

(** X20. The script leaves the files in one of five states. With exit
    code 1: as they were; or [types.ts] holding what a rejected write
    left of it; or, the types written in full, [api.ts] untouched or
    holding what a rejected write left of it. Without a new exit code:
    [types.ts] holding the types and [api.ts] the client. So [api.ts]
    is touched only after [types.ts] is complete, a failure undoes
    nothing, and no other path is written. *)
Theorem client_is_written_after_the_types fetch m :
  let m' := generateTypes fetch m in
  (exit_code m' = Some 1 /\
   (files m' = files m \/
    exists partial, files m' = <[typesPath := partial]> (files m))) \/
  exists types text,
    types_of fetch = Return types /\ file_data types = Return text /\
    sharedDir ∈ directories m' /\
    (exit_code m' = Some 1 /\
     (files m' = <[typesPath := text]> (files m) \/
      exists partial,
        files m' = <[clientPath := partial]> (<[typesPath := text]> (files m))) \/
     exit_code m' = exit_code m /\
     files m' = <[clientPath := apiClient]> (<[typesPath := text]> (files m))).
Proof.
  unfold generateTypes. rewrite try_block_types.
  destruct m as [f d l c x].
  destruct (types_of fetch) as [types|e]; [|left; split; [done|now left]].
  destruct (file_data types) as [text|e] eqn:Hd.
  - file_system l.
    all: rewrite ?Hd; cbn; rewrite ?file_data_string; cbn.
    all: first
      [ left; split; [done|]; first [now left | right; eexists; done]
      | right; exists types, text; split; [done|]; split; [done|];
        split; [set_solver|];
        first [ left; split; [done|]; first [now left | right; eexists; done]
              | right; done ] ].
  - file_system l.
    all: rewrite ?Hd; cbn.
    all: left; split; [done|now left].
Qed.

End ScriptProperties.

(** * The properties on the sample server *)

Import Sample.

Lemma degraded_read_is_one_fetch_witness :
  redis degraded = false /\
  let r := getCachedOrFetch "user:u1" (fetch_user "u1") 300 degraded in
  r.1 = (fetch_user "u1" (db degraded)).1 /\
  issued degraded r.2 = [EFetch] /\
  db r.2 = (fetch_user "u1" (db degraded)).2 /\
  keyspace r.2 = keyspace degraded /\ faults r.2 = faults degraded /\
  redis r.2 = false.
Proof.
  split; [reflexivity|].
  apply (degraded_read_is_one_fetch "user:u1" (fetch_user "u1") 300 degraded).
  reflexivity.
Defined.

Lemma failed_fetch_is_not_cached_witness :
  redis booted = true /\ next_fault booted = None /\
  truthy (live booted "user:u9") = false /\
  fetch_user "u9" (db booted)
    = (Throw (Error "JSON object requested, multiple (or no) rows returned"),
       db booted) /\
  let r := getCachedOrFetch "user:u9" (fetch_user "u9") 300 booted in
  r.1 = Throw (Error "JSON object requested, multiple (or no) rows returned") /\
  keyspace r.2 = keyspace booted /\
  issued booted r.2 = [EGet "user:u9"; EFetch].
Proof.
  repeat (split; [reflexivity|]).
  apply (failed_fetch_is_not_cached "user:u9" (fetch_user "u9") 300 booted
           (Error "JSON object requested, multiple (or no) rows returned")
           (db booted));
    reflexivity.
Defined.




(** C9 on the sample server: the hit on [user:u1] ten seconds after it
    was populated. *)
Lemma hit_is_json_round_trip_witness :
  let first := getCachedOrFetch "user:u1" (fetch_user "u1") 300 booted in
  let w2 := step (Elapse 10) first.2 in
  populates "user:u1" (fetch_user "u1") 300 booted (JObj [("data", ada)]) first.2 /\
  keyspace w2 !! "user:u1" = keyspace first.2 !! "user:u1" /\
  redis w2 = true /\ next_fault w2 = None /\
  truthy (live w2 "user:u1") = true /\
  let r := getCachedOrFetch "user:u1" (fetch_user "u1") 300 w2 in
  exists text,
    JSON_stringify (JObj [("data", ada)]) = Some text /\
    r.1 = JSON_parse text /\
    (r.1 = Return (JObj [("data", ada)])
     <-> JSON_parse text = Return (JObj [("data", ada)])).
Proof.
  intros first w2.
  assert (H1 : populates "user:u1" (fetch_user "u1") 300 booted
                 (JObj [("data", ada)]) first.2)
    by (repeat split; vm_compute; reflexivity).
  assert (H2 : keyspace w2 !! "user:u1" = keyspace first.2 !! "user:u1")
    by reflexivity.
  assert (H3 : redis w2 = true) by (vm_compute; reflexivity).
  assert (H4 : next_fault w2 = None) by (vm_compute; reflexivity).
  assert (H5 : truthy (live w2 "user:u1") = true) by (vm_compute; reflexivity).
  repeat (split; [assumption|]).
  exact (hit_is_json_round_trip "user:u1" (fetch_user "u1") 300 booted
           (JObj [("data", ada)]) first.2 w2 (fetch_user "u1") 300
           H1 H2 H3 H4 H5).
Defined.

(** C7 on the sample server: the connection raises an error while the
    ping of the start-up is awaited, and the ping is rejected; a read,
    a write, a health check, a lapse of time and an error event later,
    the cache is still off. *)
Lemma disabled_for_good_witness :
  let w0 := set_faults [Some reset] booted in
  let w := (startup [reset] w0).2 in
  let acts := [Serve GET_users; Serve (PATCH_user "u1" rename "t2");
               Serve (GET_health "t3"); Elapse 5; ErrorEvent reset] in
  let w1 := run acts w in
  (((next_fault w0 = Some reset \/ [reset] <> []) /\
    w = (startup [reset] w0).2) \/
   w = (on_error reset w0).2) /\
  (redis w1 = false /\
   commands w1 = commands w /\
   (forall cacheKey fetcher ttl,
      let r := getCachedOrFetch cacheKey fetcher ttl w1 in
      r.1 = (fetcher (db w1)).1 /\ issued w1 r.2 = [EFetch]) /\
   (forall pattern, invalidateCache pattern w1 = (Return tt, w1))).
Proof.
  intros w0 w acts w1.
  assert (H1 : ((next_fault w0 = Some reset \/ [reset] <> []) /\
                w = (startup [reset] w0).2) \/
               w = (on_error reset w0).2)
    by (left; split; [left|]; reflexivity).
  split; [exact H1|].
  exact (disabled_for_good [reset] w0 w reset acts H1).
Defined.

(** C3 on the sample server: the [GET] of a read is rejected. *)
Lemma cache_error_fails_the_read_witness :
  let w := set_faults [Some reset] booted in
  redis w = true /\
  (next_fault w = Some reset \/
   (next_fault w = None /\ truthy (live w "users:all") = false /\
    (exists v d, fetch_users (db w) = (Return v, d)) /\
    next_fault (answered (EGet "users:all") w) = Some reset)) /\
  let r := getCachedOrFetch "users:all" fetch_users 300 w in
  r.1 = Throw reset /\
  keyspace r.2 = keyspace w /\
  (next_fault w = Some reset -> issued w r.2 = [EGet "users:all"]) /\
  (forall rq, read_of rq = Some ("users:all", fetch_users, 300) ->
              (serve rq w).1 = Return (internal_error reset)).
Proof.
  intros w.
  assert (H1 : redis w = true) by reflexivity.
  assert (H2 : next_fault w = Some reset \/
               (next_fault w = None /\ truthy (live w "users:all") = false /\
                (exists v d, fetch_users (db w) = (Return v, d)) /\
                next_fault (answered (EGet "users:all") w) = Some reset))
    by (left; reflexivity).
  repeat (split; [assumption|]).
  exact (cache_error_fails_the_read "users:all" fetch_users 300 w reset H1 H2).
Defined.

(** C3 as stated fails: the cache is on, the fetcher would return the
    users, yet the rejected [GET] makes the read throw, unfetched, and
    the route answer 500. *)
Lemma read_fails_on_cache_error :
  let w := set_faults [Some reset] booted in
  redis w = true /\
  (fetch_users (db w)).1 = Return (JObj [("data", JArr [ada])]) /\
  (getCachedOrFetch "users:all" fetch_users 300 w).1 = Throw reset /\
  issued w (getCachedOrFetch "users:all" fetch_users 300 w).2
    = [EGet "users:all"] /\
  (serve GET_users w).1 = Return (internal_error reset) /\
  code (internal_error reset) = 500.
Proof. vm_compute. repeat split. Qed.

(** C4 on the sample server: the [KEYS] of the first invalidation of an
    update is rejected. *)
Lemma failed_invalidation_fails_the_write_witness :
  let r := PATCH_user "u1" rename "t2" in
  let q := users_update (JObj (assign "updated_at" (JStr "t2") (spread rename))) "u1" in
  let w := unplugged in
  let rep := (q (db w)).1 in
  let d := (q (db w)).2 in
  let inv := invalidate_all (invalidates (@Serve table r)) (set_db d w) in
  write_of r = Some q /\
  q (db w) = (rep, d) /\
  error rep = None /\
  db inv.2 = d /\
  match inv.1 with
  | Throw e =>
      serve r w
      = (Return (internal_error e), emit (EError (message e)) inv.2)
  | Return _ => serve r w = (Return (written r rep), inv.2)
  end /\
  (forall e, redis w = true -> next_fault w = Some e -> inv.1 = Throw e) /\
  (redis w = false -> inv.1 = Return tt).
Proof.
  intros r q w rep d inv.
  assert (H1 : write_of r = Some q) by reflexivity.
  assert (H2 : q (db w) = (rep, d)) by reflexivity.
  assert (H3 : error rep = None) by reflexivity.
  repeat (split; [assumption|]).
  exact (failed_invalidation_fails_the_write r q w rep d H1 H2 H3).
Defined.

(** C4 as stated fails: the update of [u1] is committed to the store,
    the [KEYS] of the invalidation is rejected, and the caller is
    answered 500. *)
Lemma write_fails_on_cache_error :
  let served := serve (PATCH_user "u1" rename "t2") unplugged in
  redis unplugged = true /\
  db served.2
    = [("u1", JObj [("id", JStr "u1"); ("name", JStr "Bea");
                    ("updated_at", JStr "t2")])] /\
  served.1 = Return (internal_error reset) /\
  code (internal_error reset) = 500 /\
  issued unplugged served.2 = [EKeys "user:u1"; EError "read ECONNRESET"].
Proof. vm_compute. repeat split. Qed.


(** The same for a create: the users are listed and [eve] is read,
    then a user is created. Only [users:*] is invalidated; nothing is
    under the key of the new user, and the reads of her key and of the
    listing both fetch. *)
Example create_is_followed_by_fetches :
  let w := run [Serve GET_users; Serve (GET_user eve_id)] opened in
  let created := serve (POST_users fay new_id "t1" "t1") w in
  let one := getCachedOrFetch ("user:" +:+ new_id) (fetch_user new_id) 300
               created.2 in
  let all := getCachedOrFetch "users:all" fetch_users 300 created.2 in
  code <$> (match created.1 with Return resp => Some resp | Throw _ => None end)
    = Some 201 /\
  filter is_command (issued w created.2) = [EKeys "users:*"; EDel ["users:all"]] /\
  keyspace w !! ("user:" +:+ new_id) = None /\
  EFetch ∈ issued created.2 one.2 /\
  EFetch ∈ issued created.2 all.2.
Proof. vm_compute. repeat split; repeat constructor. Qed.

(** C8 on the sample server: the orders listing is stored for a
    minute. *)
Lemma ttl_is_the_one_the_route_passes_witness :
  let q := OrdersQuery None (Some "shipped") None None in
  let value := to_arg (JSON_stringify
                 (JObj [("data", JArr []);
                        ("meta", JObj [("total", JNum 0); ("limit", JNum 20);
                                       ("offset", JNum 0)])])) in
  ESetex (orders_key q) 60 value ∈ issued booted (serve (GET_orders q) booted).2 /\
  (orders_key q = orders_key q /\ 60 = 60).
Proof.
  intros q value.
  assert (H1 : ESetex (orders_key q) 60 value
               ∈ issued booted (serve (GET_orders q) booted).2).
  { apply list_elem_of_In. vm_compute. right. right. left. reflexivity. }
  split; [exact H1|].
  exact (ttl_is_the_one_the_route_passes (GET_orders q) booted (orders_key q) 60 value H1).
Defined.

(** C8 as stated fails: the users listing is stored for 300 seconds,
    not 60. *)
Lemma users_listing_is_stored_for_300 :
  issued booted (serve GET_users booted).2
  = [EGet "users:all"; EFetch;
     ESetex "users:all" 300
       (to_arg (JSON_stringify (JObj [("data", JArr [ada])])));
     EInfo "Cache set: users:all"] /\
  (keyspace (serve GET_users booted).2 !! "users:all")
  = Some (to_arg (JSON_stringify (JObj [("data", JArr [ada])])),
          clock booted + 300) /\
  300 <> 60.
Proof. vm_compute. repeat split. lia. Qed.

(** ** The further properties on the sample server *)

(** X1: the first read of [user:u1]. *)
Lemma miss_returns_the_fetched_value_witness :
  let v := JObj [("data", ada)] in
  redis booted = true /\ next_fault booted = None /\
  truthy (live booted "user:u1") = false /\
  fetch_user "u1" (db booted) = (Return v, db booted) /\
  next_fault (answered (EGet "user:u1") booted) = None /\
  let r := getCachedOrFetch "user:u1" (fetch_user "u1") 300 booted in
  r.1 = Return v /\
  keyspace r.2
  = <["user:u1" := (to_arg (JSON_stringify v), clock booted + 300)]>
      (keyspace booted) /\
  issued booted r.2
  = [EGet "user:u1"; EFetch;
     ESetex "user:u1" 300 (to_arg (JSON_stringify v));
     EInfo ("Cache set: " +:+ "user:u1")] /\
  db r.2 = db booted.
Proof.
  intros v.
  repeat (split; [reflexivity|]).
  apply (miss_returns_the_fetched_value "user:u1" (fetch_user "u1") 300
           booted v (db booted)); reflexivity.
Defined.

(** X2: [user:u1] is populated and read again within its five minutes;
    once they are over, the next read fetches. *)
Lemma expired_entry_is_fetched_again_witness :
  let first := getCachedOrFetch "user:u1" (fetch_user "u1") 300 booted in
  let acts := [Elapse 200; Call "user:u1" (fetch_user "u1") 300; Elapse 99] in
  let w2 := step (Elapse 1) (run acts first.2) in
  populates "user:u1" (fetch_user "u1") 300 booted (JObj [("data", ada)]) first.2 /\
  Forall (fun a => touches a "user:u1" = false) acts /\
  clock (run acts first.2) < clock booted + 300 /\
  clock booted + 300 <= clock (run acts first.2) + 1 /\
  redis w2 = true /\ next_fault w2 = None /\
  EFetch ∈ issued w2 (getCachedOrFetch "user:u1" (fetch_user "u1") 300 w2).2.
Proof.
  intros first acts w2.
  assert (H1 : populates "user:u1" (fetch_user "u1") 300 booted
                 (JObj [("data", ada)]) first.2)
    by (repeat split; vm_compute; reflexivity).
  assert (H2 : Forall (fun a => touches a "user:u1" = false) acts)
    by (repeat constructor).
  assert (H3 : clock (run acts first.2) < clock booted + 300)
    by (vm_compute; lia).
  assert (H4 : clock booted + 300 <= clock (run acts first.2) + 1)
    by (vm_compute; lia).
  assert (H5 : redis w2 = true) by (vm_compute; reflexivity).
  assert (H6 : next_fault w2 = None) by (vm_compute; reflexivity).
  repeat (split; [assumption|]).
  exact (expired_entry_is_fetched_again "user:u1" (fetch_user "u1") 300 booted
           (JObj [("data", ada)]) first.2 acts 1 (fetch_user "u1") 300
           H1 H2 H3 H4 H5 H6).
Defined.

(** X3: the users listing over a cache that holds a broken text. *)
Lemma unparsable_entry_fails_the_read_witness :
  let e := Error "Unexpected token in JSON" in
  redis poisoned = true /\ next_fault poisoned = None /\
  live poisoned "users:all" = Some "{" /\ truthy (Some "{") = true /\
  JSON_parse "{" = Throw e /\
  let r := getCachedOrFetch "users:all" fetch_users 300 poisoned in
  r.1 = Throw e /\
  (EFetch ∉ issued poisoned r.2) /\
  keyspace r.2 = keyspace poisoned /\
  (forall rq, read_of rq = Some ("users:all", fetch_users, 300) ->
              (serve rq poisoned).1 = Return (internal_error e)).
Proof.
  intros e.
  repeat (split; [reflexivity|]).
  apply (unparsable_entry_fails_the_read "users:all" fetch_users 300 poisoned
           "{" e); reflexivity.
Defined.

(** X4: the users listings are invalidated on the warm server. *)
Lemma invalidation_is_all_or_nothing_witness :
  redis warm = true /\
  let r := invalidateCache "users:*" warm in
  match r.1 with
  | Return _ =>
      matching r.2 "users:*" = [] /\
      (forall k, glob "users:*" k = false ->
                 keyspace r.2 !! k = keyspace warm !! k)
  | Throw _ => keyspace r.2 = keyspace warm
  end.
Proof.
  split; [reflexivity|].
  apply (invalidation_is_all_or_nothing "users:*" warm). reflexivity.
Defined.

(** X5: and invalidated once more. *)
Lemma second_invalidation_finds_nothing_witness :
  let first := invalidateCache "users:*" warm in
  redis warm = true /\ first = (Return tt, first.2) /\
  next_fault first.2 = None /\
  let r := invalidateCache "users:*" first.2 in
  r.1 = Return tt /\
  issued first.2 r.2 = [EKeys "users:*"] /\
  keyspace r.2 = keyspace first.2.
Proof.
  intros first.
  assert (H1 : redis warm = true) by reflexivity.
  assert (H2 : first = (Return tt, first.2)) by (vm_compute; reflexivity).
  assert (H3 : next_fault first.2 = None) by (vm_compute; reflexivity).
  repeat (split; [assumption|]).
  exact (second_invalidation_finds_nothing "users:*" warm first.2 H1 H2 H3).
Defined.

(** X6: the update of a user that does not exist. *)
Lemma refused_write_invalidates_nothing_witness :
  let r := PATCH_user "u9" rename "t2" in
  let q := users_update (JObj (assign "updated_at" (JStr "t2") (spread rename))) "u9" in
  let e := Error "JSON object requested, multiple (or no) rows returned" in
  write_of r = Some q /\
  q (db warm) = (no_rows, db warm) /\
  error no_rows = Some e /\
  let served := serve r warm in
  served.1 = Return (internal_error (Error (message e))) /\
  issued warm served.2 = [EError (message e)] /\
  keyspace served.2 = keyspace warm /\
  db served.2 = db warm.
Proof.
  intros r q e.
  repeat (split; [reflexivity|]).
  apply (refused_write_invalidates_nothing r q warm no_rows (db warm) e);
    reflexivity.
Defined.

(** X10: the update of [u1] leaves the entry of the orders listing. *)
Lemma write_leaves_the_other_keys_witness :
  let r := PATCH_user "u1" rename "t2" in
  let k := orders_key (OrdersQuery None None None None) in
  @write_of table _ r <> None /\ literal_target r = true /\
  purges r k = false /\
  keyspace (serve r warm).2 !! k = keyspace warm !! k.
Proof.
  intros r k.
  assert (H1 : @write_of table _ r <> None) by discriminate.
  assert (H2 : literal_target r = true) by reflexivity.
  assert (H3 : purges r k = false) by reflexivity.
  repeat (split; [assumption|]).
  exact (write_leaves_the_other_keys r warm k H1 H2 H3).
Defined.

(** X11: the listing of the users on the cold server, cache on and
    off. *)
Lemma cold_cache_answers_as_no_cache_witness :
  (forall timestamp, GET_users <> GET_health timestamp) /\
  keyspace booted = ∅ /\ faults booted = [] /\
  (serve GET_users (set_redis true booted)).1
  = (serve GET_users (set_redis false booted)).1 /\
  db (serve GET_users (set_redis true booted)).2
  = db (serve GET_users (set_redis false booted)).2.
Proof.
  assert (H1 : forall timestamp, GET_users <> GET_health timestamp)
    by discriminate.
  assert (H2 : keyspace booted = ∅) by reflexivity.
  assert (H3 : faults booted = []) by reflexivity.
  repeat (split; [assumption|]).
  exact (cold_cache_answers_as_no_cache GET_users booted H1 H2 H3).
Defined.

(** X12: a day in the life of the sample server. *)
Lemma entries_expire_within_300_witness :
  let acts := [Serve GET_users; Elapse 250; Serve (GET_user "u1");
               Serve (GET_orders (OrdersQuery None None None None));
               Elapse 100; Serve (PATCH_user "u1" rename "t2");
               ErrorEvent reset; Serve GET_users] in
  Forall (fun a => external a = true) acts /\
  within 300 booted /\
  within 300 (run acts booted).
Proof.
  intros acts.
  assert (H1 : Forall (fun a => external a = true) acts)
    by (repeat constructor).
  assert (H2 : within 300 booted).
  { intros k text expiry Hk. vm_compute in Hk. discriminate. }
  repeat (split; [assumption|]).
  exact (entries_expire_within_300 acts booted H1 H2).
Defined.



(** X17: the update of [u1] and the listing of all orders. *)
Lemma orders_listing_is_never_invalidated_witness :
  let r := PATCH_user "u1" rename "t2" in
  let q := OrdersQuery None None None None in
  reads (@Serve table r) <> Some (orders_key q) /\
  keyspace (serve r warm).2 !! orders_key q = keyspace warm !! orders_key q.
Proof.
  intros r q.
  assert (H1 : reads (@Serve table r) <> Some (orders_key q)) by discriminate.
  split; [assumption|].
  exact (orders_listing_is_never_invalidated r warm q H1).
Defined.

Example sample_paths :
  Script.typesPath = "/repo/shared/types.ts" /\
  Script.clientPath = "/repo/shared/api.ts" /\
  posix_join ["a/b/"; "../../../c"; "."; "d//"] = "../c/d/" /\
  posix_join [EmptyString; EmptyString] = "." /\
  posix_join ["/.."; "./"] = "/".
Proof. vm_compute. repeat split. Qed.

(** Start-up on the sample server: the connection is refused once
    while the ping is awaited, then the ping is answered; the cache is
    off all the same. *)
Example error_during_the_ping_disables :
  let r := startup [reset] (set_redis false booted) in
  r.1 = Return tt /\
  next_fault (set_redis false booted) = None /\
  redis r.2 = false /\
  issued (set_redis false booted) r.2
  = [EWarn "⚠️ Redis error: read ECONNRESET"; EPing].
Proof. vm_compute. repeat split. Qed.

(** ** The properties of the script on the sample Node *)

Lemma nothing_is_written_unless_the_types_arrive_witness :
  Script.types_of failing =
    Throw (Error "MCP Server not running. Start it first with: npm run dev:mcp") /\
  let m' := Script.generateTypes failing full_disk in
  Script.files m' = Script.files full_disk /\
  Script.directories m' = Script.directories full_disk /\
  Script.rejections m' = Script.rejections full_disk /\
  Script.console m' =
    Script.console full_disk ++
    [Script.Log "🔧 Generating types from MCP Server...";
     Script.Err ("❌ Error generating types: " +:+
                 "MCP Server not running. Start it first with: npm run dev:mcp")] /\
  Script.exit_code m' = Some 1.
Proof.
  split; [reflexivity|].
  exact (nothing_is_written_unless_the_types_arrive failing _ full_disk eq_refl).
Defined.

Lemma script_succeeds_iff_witness :
  Script.exit_code blank = None /\
  (Script.exit_code (Script.generateTypes served blank) = None <->
   (exists types text,
      Script.types_of served = Return types /\
      Script.file_data types = Return text) /\
   Script.accepts 3 blank) /\
  (Script.exit_code (Script.generateTypes served blank) = None \/
   Script.exit_code (Script.generateTypes served blank) = Some 1).
Proof.
  split; [reflexivity|].
  exact (script_succeeds_iff served blank eq_refl).
Defined.

(** The script on a disk that fills up after the first file: the types
    are there, the client is empty, the exit code is 1. *)
Example script_on_a_full_disk :
  let m' := Script.generateTypes served full_disk in
  Script.files m' !! "/repo/shared/types.ts" =
    Some "export type User = { id: string };" /\
  Script.files m' !! "/repo/shared/api.ts" = Some EmptyString /\
  Script.console m' =
    [Script.Log "🔧 Generating types from MCP Server...";
     Script.Log "✅ Types generated successfully at: /repo/shared/types.ts";
     Script.Err "❌ Error generating types: ENOSPC: no space left on device, write"] /\
  Script.exit_code m' = Some 1.
Proof. vm_compute. repeat split. Qed.
